(** * Joint intent detection and slot labelling: prediction path

    A shallow embedding of [models/jlu.py] (the [RNNBasedJLU] model and its
    [predict]) and of [predict.py] ([prepare_model], [PredictorWithProgress],
    [save], [generate]).

    Conventions.
    - Tensors are nested lists, the outermost list being dimension 0 (the
      batch).  Float entries are idealised as real numbers: no rounding,
      overflow or NaN.
    - Python exceptions are values of [Exn]; code that may raise returns a
      [result], and code that also touches the outside world (files, the
      progress counter, the scoring model) runs in the monad [M].
    - Library code ([torch.sort], the embedding / recurrent / pooling /
      classifier modules) is taken through its documented contract. *)

From stdpp Require Import gmap strings list fin_maps sorting.
From Stdlib Require Import Ascii Reals Lra ZArith.

#[local] Open Scope Z_scope.
#[local] Open Scope nat_scope.

(** ** Exceptions and results *)

(** The exceptions that matter on the prediction path.  The first five are
    Python's own; the last three are the error kinds named by the design's
    error taxonomy. *)
Inductive Exn : Type :=
  | UnboundLocalError
  | IndexError
  | ValueError
  | KeyError
  | RuntimeError
  | InvalidInputError
  | ShapeMismatchError
  | VocabularyExpansionError.

#[global] Instance Exn_eq_dec : EqDecision Exn.
Proof. solve_decision. Defined.

Inductive result (A : Type) : Type :=
  | Ok (a : A)
  | Err (e : Exn).
Arguments Ok {A} a.
Arguments Err {A} e.

#[global] Instance result_ret : MRet result := λ A a, Ok a.
#[global] Instance result_bind : MBind result := λ A B f r,
  match r with
  | Ok a => f a
  | Err e => Err e
  end.

(** [for x in xs: ...] over a fallible body, collecting the results. *)
Fixpoint result_mapM {A B} (f : A → result B) (xs : list A) : result (list B) :=
  match xs with
  | [] => Ok []
  | x :: xs' =>
      match f x with
      | Err e => Err e
      | Ok y =>
          match result_mapM f xs' with
          | Err e => Err e
          | Ok ys => Ok (y :: ys)
          end
      end
  end.

(** ** Python strings *)

Module Py.

(** ASCII code points for which [str.isspace] holds: the characters
    [str.split()] splits on. *)
Definition is_space (c : ascii) : bool :=
  let n := nat_of_ascii c in
  ((9 <=? n) && (n <=? 13)) || ((28 <=? n) && (n <=? 32)).

Definition newline : ascii := ascii_of_nat 10.
Definition nl : string := String newline EmptyString.

(** [flush cur acc]: close the word being read, if any. *)
Definition flush (cur : string) (acc : list string) : list string :=
  match cur with
  | EmptyString => acc
  | _ => acc ++ [cur]
  end.

(** [s.split()]: the maximal runs of non-space characters, in order.
    [cur] is the word being read, [acc] the words already closed. *)
Fixpoint split_go (s : string) (cur : string) (acc : list string) : list string :=
  match s with
  | EmptyString => flush cur acc
  | String c s' =>
      if is_space c then split_go s' EmptyString (flush cur acc)
      else split_go s' (cur +:+ String c EmptyString) acc
  end.

Definition split (s : string) : list string := split_go s EmptyString [].

(** [sep.join(ws)] *)
Fixpoint join (sep : string) (ws : list string) : string :=
  match ws with
  | [] => EmptyString
  | [w] => w
  | w :: ws' => w +:+ sep +:+ join sep ws'
  end.

(** Whether a character occurs in a string. *)
Fixpoint mem (c : ascii) (s : string) : bool :=
  match s with
  | EmptyString => false
  | String d s' => if decide (c = d) then true else mem c s'
  end.

(** The text of a file as the list of its newline-terminated lines; an
    unterminated tail counts as a last line. *)
Fixpoint lines_go (s : string) (cur : string) : list string :=
  match s with
  | EmptyString => match cur with EmptyString => [] | _ => [cur] end
  | String c s' =>
      if decide (c = newline) then cur :: lines_go s' EmptyString
      else lines_go s' (cur +:+ String c EmptyString)
  end.

Definition lines (s : string) : list string := lines_go s EmptyString.

(** The text made of the given lines, each followed by a newline. *)
Definition unlines (rows : list string) : string :=
  foldr (λ row text, row +:+ nl +:+ text) EmptyString rows.

(** [os.path.join(d, f)] on POSIX, two components. *)
Definition path_join (d f : string) : string :=
  match f with
  | String "/" _ => f
  | _ =>
      match d with
      | EmptyString => f
      | _ =>
          if decide (String.get (String.length d - 1) d = Some "/"%char)
          then d +:+ f
          else d +:+ "/" +:+ f
      end
  end.

End Py.

(** ** The tensor operations of [torch] used on the prediction path *)

Module Torch.

(** [t.size(1)] of a tensor of rank two or more. *)
Definition size1 {A} (t : list (list A)) : nat :=
  match t with
  | [] => 0
  | r :: _ => length r
  end.

Definition sum_list (xs : list R) : R := foldr Rplus 0%R xs.

(** [F.softmax] and [F.log_softmax] along the last axis of one row. *)
Definition softmax_row (xs : list R) : list R :=
  (λ x, exp x / sum_list (exp <$> xs))%R <$> xs.

Definition log_softmax_row (xs : list R) : list R :=
  (λ x, x - ln (sum_list (exp <$> xs)))%R <$> xs.

(** [F.softmax(t, 1)] on a [batch x classes] tensor. *)
Definition softmax (t : list (list R)) : list (list R) := softmax_row <$> t.

(** [F.log_softmax(t, 2)] on a [batch x length x classes] tensor. *)
Definition log_softmax (t : list (list (list R))) : list (list (list R)) :=
  (λ rows : list (list R), log_softmax_row <$> rows) <$> t.

(** [t.exp()], elementwise, on a rank-two tensor. *)
Definition exp (t : list (list R)) : list (list R) :=
  (λ row : list R, Rtrigo_def.exp <$> row) <$> t.

(** [t[:, :k]] for a Python integer [k]: a negative bound counts from the
    end of the row. *)
Definition slice_to {A} (k : Z) (row : list A) : list A :=
  if (0 <=? k)%Z then take (Z.to_nat k) row
  else take (length row - Z.to_nat (- k)) row.

(** [t.view(-1, t.size(-1))]: the rows of a rank-three tensor, batch-major. *)
Definition view_2d {A} (t : list (list (list A))) : list (list A) := concat t.

(** [o.view(b, l, o.size(-1))]: [b] consecutive groups of [l] rows. *)
Definition view_3d {A} (b l : nat) (rows : list (list A)) : list (list (list A)) :=
  (λ i, take l (drop (i * l) rows)) <$> seq 0 b.

(** [x[i]] for an index the caller knows to be in range. *)
Definition gather (xs : list R) (idx : list nat) : list R :=
  (λ i, nth i xs 0%R) <$> idx.

(** [torch.sort(row, descending=True)], through its documented contract:
    the index row is a permutation of the positions of [row], and the
    values read through it are in descending order.  The library does not
    say in which order equal values come out. *)
Class Sort := {
  argsort_desc : list R → list nat;
  argsort_desc_perm : ∀ xs, argsort_desc xs ≡ₚ seq 0 (length xs);
  argsort_desc_sorted : ∀ xs, Sorted Rge (gather xs (argsort_desc xs))
}.

(** [torch.sort(t, 1, True)] on a [batch x classes] tensor: the pair
    [(values, indices)]. *)
Definition sort `{Sort} (t : list (list R)) : list (list R) * list (list nat) :=
  ((λ row, gather row (argsort_desc row)) <$> t, argsort_desc <$> t).

End Torch.

(** ** [models/utils.py]: the beam-search decoder *)

Module Utils.

(** Modelled from the spec: a beam hypothesis, the label ids chosen so far,
    oldest first, and their cumulative log-probability. *)
Definition Hyp : Type := list nat * R.

(** Modelled from the spec: the ranking of hypotheses by descending score,
    "breaking ties by stable order".  A hypothesis is inserted behind every
    one that scores at least as well, so that equal scores keep the order in
    which they were produced. *)
Fixpoint insert_hyp (h : Hyp) (beam : list Hyp) : list Hyp :=
  match beam with
  | [] => [h]
  | h' :: beam' =>
      if Rlt_dec h'.2 h.2 then h :: beam else h' :: insert_hyp h beam'
  end.

(** Modelled from the spec: the stable sort built from [insert_hyp]. *)
Definition sort_hyps (hs : list Hyp) : list Hyp := foldl (flip insert_hyp) [] hs.

(** Modelled from the spec: every extension of [h] by one label of the
    position whose log-probabilities are [row], by ascending label id; the
    score of an extension is the score so far plus the label's
    log-probability. *)
Definition extend (row : list R) (h : Hyp) : list Hyp :=
  imap (λ l x, (h.1 ++ [l], (h.2 + x)%R)) row.

(** Modelled from the spec: position 0, the [k] (or fewer, if there are
    fewer labels) highest-scoring single-label hypotheses. *)
Definition beam_init (k : nat) (row : list R) : list Hyp :=
  take k (sort_hyps (imap (λ l x, ([l], x)) row)).

(** Modelled from the spec: a later position, the [k] best among all
    extensions of all live hypotheses, ties in the order (hypothesis,
    label). *)
Definition beam_step (k : nat) (beam : list Hyp) (row : list R) : list Hyp :=
  take k (sort_hyps (beam ≫= extend row)).

(** Modelled from the spec: the per-example prefix beam search of
    [BeamSearchDecoder], whose file [models/utils.py] is absent.  Position
    0 seeds the beam with the [k] best single labels; every later position
    below the example's length extends every live hypothesis by every
    label and keeps the [k] best, ties in the order (hypothesis, label);
    positions at or beyond the length extend nothing. *)
Definition decode_example (k : nat) (rows : list (list R)) (len : nat) : list Hyp :=
  match take len rows with
  | [] => []
  | row0 :: rest => foldl (beam_step k) (beam_init k row0) rest
  end.

(** The arguments [predict] constructs the decoder with. *)
Record BeamSearchDecoder := {
  logprobs : list (list (list R));
  lens : list nat;
  beam_size : Z
}.

(** Modelled from the spec: [BeamSearchDecoder.decode], absent with
    [models/utils.py].  A zero length is an [InvalidInputError], a batch
    size that differs between scores and lengths a [ShapeMismatchError].
    Otherwise every example gets its live hypotheses, best first: the
    label sequences, each with one label per position below the example's
    length, and their cumulative log-probabilities.  (The docstring of
    [predict] calls the candidates a [batch_size x topk x max_len] tensor;
    what would stand at positions at or beyond an example's length is
    said nowhere, and the design gives every sequence the length of its
    example, which is what is modelled here.) *)
Definition decode (bs : BeamSearchDecoder)
    : result (list (list (list nat)) * list (list R)) :=
  if decide (0 ∈ lens bs) then Err InvalidInputError
  else if decide (length (logprobs bs) = length (lens bs)) then
    let hyps := zip_with (decode_example (Z.to_nat (beam_size bs)))
                         (logprobs bs) (lens bs) in
    Ok ((λ beam : list Hyp, fst <$> beam) <$> hyps,
        (λ beam : list Hyp, snd <$> beam) <$> hyps)
  else Err ShapeMismatchError.

End Utils.

(** ** [models/jlu.py] *)

Module Jlu.

(** A model's parameter values by name, as [state_dict()] gives them. *)
Abbreviation StateDict := (gmap string (list R)).

(** The module classes the model is assembled from.  Each is a black box:
    its output is a function of its constructor arguments, the parameter
    values and its input, and keeps the leading (batch or row) dimension.
    The embedding and the recurrent encoder also keep the padded length:
    the encoder returns one hidden state per padded position, the same
    number for every example.  A classifier built for [num_labels] classes
    scores exactly that many. *)
Record EmbeddingCls := {
  embedding_forward : StateDict → nat → nat → list (list nat) → list (list (list R));
  embedding_batch : ∀ p v d w, length (embedding_forward p v d w) = length w;
  embedding_len : ∀ p v d w, Torch.size1 (embedding_forward p v d w) = Torch.size1 w
}.

Record RNNCls := {
  rnn_forward :
    StateDict → nat → nat → list (list (list R)) → list nat → list (list (list R));
  rnn_batch : ∀ p i h w lens, length (rnn_forward p i h w lens) = length w;
  rnn_len : ∀ p i h w lens, Torch.size1 (rnn_forward p i h w lens) = Torch.size1 w;
  rnn_rect : ∀ p i h w lens,
    Forall (λ r, length r = Torch.size1 (rnn_forward p i h w lens))
           (rnn_forward p i h w lens)
}.

Record PoolingCls := {
  pooling_forward : StateDict → nat → list (list (list R)) → list (list R);
  pooling_batch : ∀ p d hs, length (pooling_forward p d hs) = length hs
}.

Record ClassifierCls := {
  classifier_forward : StateDict → nat → nat → list (list R) → list (list R);
  classifier_rows : ∀ p h n x, length (classifier_forward p h n x) = length x;
  classifier_cols : ∀ p h n x, Forall (λ r, length r = n) (classifier_forward p h n x)
}.

(** Module instances: the class and the keyword arguments it was built with. *)
Record Embedding := { emb_cls : EmbeddingCls; emb_vocab_size : nat; emb_dim : nat }.
Record RNN := { rnn_cls_of : RNNCls; rnn_input_dim : nat; rnn_hidden_dim : nat }.
Record Pooling := { pool_cls : PoolingCls; pool_dim : nat }.
Record Classifier := { clf_cls : ClassifierCls; clf_hidden_dim : nat; clf_num_labels : nat }.

(** The keyword arguments of [RNNBasedJLU.__init__] that select classes. *)
Record ModelCls := {
  embedding : EmbeddingCls;
  rnn_cls : RNNCls;
  pooling_cls : PoolingCls;
  slot_classifier_cls : ClassifierCls;
  intent_classifier_cls : ClassifierCls
}.

Record RNNBasedJLU := {
  hidden_dim : nat;
  word_dim : nat;
  num_words : nat;
  num_slots : nat;
  num_intents : nat;
  vocab_sizes : list nat;
  embeds : Embedding;
  rnn : RNN;
  pooling : Pooling;
  slot_classifier : Classifier;
  intent_classifier : Classifier;
  (** parameter values *)
  state_dict : StateDict;
  (** the attribute [generate] sets after construction *)
  beam_size : option Z
}.

(** [RNNBasedJLU.__init__]; the parameter values start out as [init]. *)
Definition __init__ (cls : ModelCls) (init : StateDict)
    (hidden_dim word_dim num_words num_slots num_intents : nat) : RNNBasedJLU :=
  {| hidden_dim := hidden_dim;
     word_dim := word_dim;
     num_words := num_words;
     num_slots := num_slots;
     num_intents := num_intents;
     vocab_sizes := [num_words; num_slots; num_intents];
     embeds := {| emb_cls := embedding cls;
                  emb_vocab_size := num_words; emb_dim := word_dim |};
     rnn := {| rnn_cls_of := rnn_cls cls;
               rnn_input_dim := word_dim; rnn_hidden_dim := hidden_dim |};
     pooling := {| pool_cls := pooling_cls cls; pool_dim := hidden_dim |};
     slot_classifier := {| clf_cls := slot_classifier_cls cls;
                           clf_hidden_dim := hidden_dim;
                           clf_num_labels := num_slots + 1 |};
     intent_classifier := {| clf_cls := intent_classifier_cls cls;
                             clf_hidden_dim := hidden_dim;
                             clf_num_labels := num_intents + 1 |};
     state_dict := init;
     beam_size := None |}.

Section forward.
Context (self : RNNBasedJLU).

Definition call_embeds (w : list (list nat)) : list (list (list R)) :=
  embedding_forward (emb_cls (embeds self)) (state_dict self)
    (emb_vocab_size (embeds self)) (emb_dim (embeds self)) w.

Definition call_rnn (w : list (list (list R))) (lens : list nat)
    : list (list (list R)) :=
  rnn_forward (rnn_cls_of (rnn self)) (state_dict self)
    (rnn_input_dim (rnn self)) (rnn_hidden_dim (rnn self)) w lens.

Definition call_pooling (hs : list (list (list R))) : list (list R) :=
  pooling_forward (pool_cls (pooling self)) (state_dict self)
    (pool_dim (pooling self)) hs.

Definition call_classifier (c : Classifier) (x : list (list R)) : list (list R) :=
  classifier_forward (clf_cls c) (state_dict self)
    (clf_hidden_dim c) (clf_num_labels c) x.

(** [embeddings] *)
Definition embeddings : Embedding := embeds self.

Definition _forward_intent (hs : list (list (list R))) : list (list R) :=
  call_classifier (intent_classifier self) (call_pooling hs).

Definition _forward_slots (hs : list (list (list R))) : list (list (list R)) :=
  let hs_size := (length hs, Torch.size1 hs) in
  let hs := Torch.view_2d hs in
  let o := call_classifier (slot_classifier self) hs in
  Torch.view_3d hs_size.1 hs_size.2 o.

Definition forward (w : list (list nat)) (s : option (list (list nat)))
    (lens : list nat) : list (list (list R)) * list (list R) :=
  let w := call_embeds w in
  let hs := call_rnn w lens in
  let igts := call_classifier (intent_classifier self) (call_pooling hs) in
  let lgts := _forward_slots hs in
  (lgts, igts).

Definition predict `{Torch.Sort}
    (w : list (list nat)) (lens : list nat) (topk : Z)
    : result ((list (list (list nat)) * list (list R)) *
              (list (list nat) * list (list R))) :=
  let '(lgts, igts) := forward w None lens in
  let slot_logprobs := Torch.log_softmax lgts in
  let bs := {| Utils.logprobs := slot_logprobs;
               Utils.lens := lens;
               Utils.beam_size := topk |} in
  '(slot_candidates, slot_logprobs) ← Utils.decode bs;
  let slot_probs := Torch.exp slot_logprobs in
  let '(intent_probs, intent_candidates) := Torch.sort (Torch.softmax igts) in
  let intent_probs := Torch.slice_to topk <$> intent_probs in
  let intent_candidates := Torch.slice_to topk <$> intent_candidates in
  mret ((slot_candidates, slot_probs), (intent_candidates, intent_probs)).

End forward.

End Jlu.

(** ** The outside world of a prediction run *)

(** What a run can change: the output files, the progress counter, and (as a
    record of what happened) the batches handed to the scoring model, oldest
    first. *)
Record World := {
  files : gmap string string;
  progress_total : nat;
  progress_n : nat;
  calls : list (list (list nat) * list nat)
}.

Definition set_file (path content : string) (σ : World) : World :=
  {| files := <[path := content]> (files σ);
     progress_total := progress_total σ;
     progress_n := progress_n σ;
     calls := calls σ |}.

Definition set_progress (total n : nat) (σ : World) : World :=
  {| files := files σ;
     progress_total := total;
     progress_n := n;
     calls := calls σ |}.

Definition add_call (c : list (list nat) * list nat) (σ : World) : World :=
  {| files := files σ;
     progress_total := progress_total σ;
     progress_n := progress_n σ;
     calls := calls σ ++ [c] |}.

Definition M (A : Type) : Type := World → result A * World.

#[global] Instance M_ret : MRet M := λ A a σ, (Ok a, σ).
#[global] Instance M_bind : MBind M := λ A B f m σ,
  match m σ with
  | (Ok a, σ') => f a σ'
  | (Err e, σ') => (Err e, σ')
  end.

Definition lift {A} (r : result A) : M A := λ σ, (r, σ).
Definition modify (f : World → World) : M unit := λ σ, (Ok (), f σ).

(** [for x in xs: body(x)] *)
Fixpoint for_each {A} (xs : list A) (body : A → M unit) : M unit :=
  match xs with
  | [] => mret ()
  | x :: xs' => body x ≫= λ _, for_each xs' body
  end.

(** [xs[i]] on a Python list *)
Definition getitem {A} (xs : list A) (i : nat) : result A :=
  match xs !! i with
  | Some x => Ok x
  | None => Err IndexError
  end.

(** ** [predict.py] *)

Module Predict.

(** [utils.Vocabulary]: the two directions of the token / id mapping. *)
Record Vocabulary := {
  f2i : gmap string nat;
  i2f : gmap nat string
}.

(** [len(vocab)] *)
Definition len (v : Vocabulary) : nat := size (f2i v).

(** The parsed command line. *)
Record Args := {
  show_progress : bool;
  word_path : string;
  word_vocab : string;
  label_vocab : string;
  intent_vocab : string;
  data_workers : Z;
  seed : option Z;
  unk : string;
  eos : string;
  bos : string;
  ckpt_path : string;
  batch_size : Z;
  save_dir : string;
  top_k : Z;
  label_filename : string;
  label_probs_filename : string;
  intent_filename : string;
  intent_probs_filename : string;
  beam_size : Z;
  expand_vocab : bool;
  gpu : list Z;
  model_path : string;
  hidden_dim : nat;
  word_dim : nat
}.

(** [MODES] *)
Definition MODES : list string := ["word"; "label"; "intent"].

(** The defaults of [--{mode}-filename] and [--{mode}-probs-filename]. *)
Definition filename_default (mode : string) : string := mode +:+ ".txt".
Definition probs_filename_default (mode : string) : string :=
  mode +:+ "-probs.txt".

(** What [parser] yields for a command line that gives the required
    options and nothing else. *)
Definition parse_required
    (word_path word_vocab label_vocab intent_vocab ckpt_path save_dir model_path
       : string) : Args :=
  {| show_progress := false;
     word_path := word_path;
     word_vocab := word_vocab;
     label_vocab := label_vocab;
     intent_vocab := intent_vocab;
     data_workers := 8;
     seed := None;
     unk := "<unk>";
     eos := "<eos>";
     bos := "<bos>";
     ckpt_path := ckpt_path;
     batch_size := 32;
     save_dir := save_dir;
     top_k := 1;
     label_filename := filename_default "label";
     label_probs_filename := probs_filename_default "label";
     intent_filename := filename_default "intent";
     intent_probs_filename := probs_filename_default "intent";
     beam_size := 6;
     expand_vocab := false;
     gpu := [];
     model_path := model_path;
     hidden_dim := 300;
     word_dim := 300 |}.

(** One item of the dataset: the raw sentence and its token ids. *)
Record Example := {
  ex_string : string;
  ex_tensor : list nat
}.

(** A collated batch: [batch["string"]] and [batch["tensor"]], the latter
    with one [(ids, lens)] pair per feature path. *)
Record Batch := {
  b_string : list string;
  b_tensor : list (list (list nat) * list nat)
}.

(** What the run reads from its surroundings: pickled vocabularies, the
    dataset reader, the model configuration, the checkpoint, the random
    initialisation and sampling, and Python's [str] on floats.
    [strict_match mdl sd] tells whether the state dict [sd] has exactly
    the parameters of [mdl], each with its shape: the check that
    [load_state_dict] makes. *)
Record Env := {
  load_pkl : string → Vocabulary;
  TextSequenceDataset :
    list string → list Vocabulary → string → string → string → list Example;
  create_model_cls : string → Jlu.ModelCls;
  initial_parameters : Jlu.StateDict;
  random_parameters : Jlu.RNNBasedJLU → Jlu.StateDict;
  torch_load : string → gmap string Jlu.StateDict;
  strict_match : Jlu.RNNBasedJLU → Jlu.StateDict → bool;
  randperm : nat → list nat;
  str_float : R → string
}.

(** *** [torch.utils.data.DataLoader] *)

Fixpoint chunks_fuel {A} (fuel n : nat) (l : list A) : list (list A) :=
  match fuel with
  | 0 => []
  | S fuel' =>
      match l with
      | [] => []
      | _ => take n l :: chunks_fuel fuel' n (drop n l)
      end
  end.

(** Consecutive groups of [n] items, the last one possibly shorter. *)
Definition chunks {A} (n : nat) (l : list A) : list (list A) :=
  chunks_fuel (length l) n l.

Record DataLoader := {
  dataset : list Example;
  dl_batch_size : nat;
  shuffle : bool;
  collate_fn : list Example → Batch
}.

(** [td.DataLoader(dataset=..., batch_size=..., collate_fn=...)]: no
    [shuffle] argument, so the default [False] applies. *)
Definition DataLoader_new (dataset : list Example) (batch_size : Z)
    (collate_fn : list Example → Batch) : result DataLoader :=
  if (batch_size <=? 0)%Z then Err ValueError
  else Ok {| dataset := dataset;
             dl_batch_size := Z.to_nat batch_size;
             shuffle := false;
             collate_fn := collate_fn |}.

Section with_env.
Context (env : Env) `{Torch.Sort}.

(** The order in which the loader visits the dataset. *)
Definition sampler (dl : DataLoader) : list nat :=
  if shuffle dl then randperm env (length (dataset dl))
  else seq 0 (length (dataset dl)).

(** [iter(dataloader)]: the batches, in the order they are yielded. *)
Definition batches (dl : DataLoader) : list Batch :=
  (λ idxs, collate_fn dl (omap (λ i, dataset dl !! i) idxs))
    <$> chunks (dl_batch_size dl) (sampler dl).

(** Modelled from the spec: [dataset.TextSequenceBatchCollator], absent
    with [dataset.py].  The token-id sequences of a batch are padded to a
    common length with the pad id of the first vocabulary and paired with
    the array of their true lengths. *)
Definition TextSequenceBatchCollator (pad_idxs : list nat)
    (exs : list Example) : Batch :=
  let lens := (λ e, length (ex_tensor e)) <$> exs in
  let pad := default 0 (pad_idxs !! 0) in
  {| b_string := ex_string <$> exs;
     b_tensor := [((λ e, resize (max_list lens) pad (ex_tensor e)) <$> exs, lens)] |}.

(** *** [prepare_dataset] and [prepare_model] *)

Definition prepare_dataset (args : Args) (vocab : Vocabulary) : list Example :=
  TextSequenceDataset env [word_path args] [vocab] (eos args) (bos args) (unk args).

(** The model with its parameter values replaced. *)
Definition with_state_dict (mdl : Jlu.RNNBasedJLU) (sd : Jlu.StateDict)
    : Jlu.RNNBasedJLU :=
  {| Jlu.hidden_dim := Jlu.hidden_dim mdl;
     Jlu.word_dim := Jlu.word_dim mdl;
     Jlu.num_words := Jlu.num_words mdl;
     Jlu.num_slots := Jlu.num_slots mdl;
     Jlu.num_intents := Jlu.num_intents mdl;
     Jlu.vocab_sizes := Jlu.vocab_sizes mdl;
     Jlu.embeds := Jlu.embeds mdl;
     Jlu.rnn := Jlu.rnn mdl;
     Jlu.pooling := Jlu.pooling mdl;
     Jlu.slot_classifier := Jlu.slot_classifier mdl;
     Jlu.intent_classifier := Jlu.intent_classifier mdl;
     Jlu.state_dict := sd;
     Jlu.beam_size := Jlu.beam_size mdl |}.

(** [mdl.load_state_dict(sd)], strict as it is by default: a state dict
    with a missing, an unexpected or a mis-shaped entry is refused with a
    [RuntimeError]; otherwise every parameter takes the given value. *)
Definition load_state_dict (mdl : Jlu.RNNBasedJLU) (sd : Jlu.StateDict)
    : result Jlu.RNNBasedJLU :=
  if strict_match env mdl sd then Ok (with_state_dict mdl sd)
  else Err RuntimeError.

(** [mdl.reset_parameters()] *)
Definition reset_parameters (mdl : Jlu.RNNBasedJLU) : Jlu.RNNBasedJLU :=
  with_state_dict mdl (random_parameters env mdl).

(** [model.beam_size = b] *)
Definition set_beam_size (mdl : Jlu.RNNBasedJLU) (b : Z) : Jlu.RNNBasedJLU :=
  {| Jlu.hidden_dim := Jlu.hidden_dim mdl;
     Jlu.word_dim := Jlu.word_dim mdl;
     Jlu.num_words := Jlu.num_words mdl;
     Jlu.num_slots := Jlu.num_slots mdl;
     Jlu.num_intents := Jlu.num_intents mdl;
     Jlu.vocab_sizes := Jlu.vocab_sizes mdl;
     Jlu.embeds := Jlu.embeds mdl;
     Jlu.rnn := Jlu.rnn mdl;
     Jlu.pooling := Jlu.pooling mdl;
     Jlu.slot_classifier := Jlu.slot_classifier mdl;
     Jlu.intent_classifier := Jlu.intent_classifier mdl;
     Jlu.state_dict := Jlu.state_dict mdl;
     Jlu.beam_size := Some b |}.

(** [prepare_model].  The body of the [if args.expand_vocab:] branch is
    [pass] (the expansion code is commented out), so on that branch the
    local [vocab] is never bound when [return mdl, vocab] reads it. *)
Definition prepare_model (args : Args) (vocabs : list Vocabulary)
    : result (Jlu.RNNBasedJLU * Vocabulary) :=
  let mdl_cls := create_model_cls env (model_path args) in
  v0 ← getitem vocabs 0;
  v1 ← getitem vocabs 1;
  v2 ← getitem vocabs 2;
  let mdl := Jlu.__init__ mdl_cls (initial_parameters env)
               (hidden_dim args) (word_dim args) (len v0) (len v1) (len v2) in
  let mdl := reset_parameters mdl in
  let ckpt := torch_load env (ckpt_path args) in
  sd ← from_option Ok (Err KeyError) (ckpt !! "model"%string);
  mdl ← load_state_dict mdl sd;
  vocab ← (if expand_vocab args then Ok None
           else v ← getitem vocabs 0; Ok (Some v));
  match vocab with
  | Some vocab => Ok (mdl, vocab)
  | None => Err UnboundLocalError
  end.

(** *** [PredictorWithProgress] *)

(** The predictor's attributes.  The device is left out: where a tensor
    lives does not change its value. *)
Record PredictorWithProgress := {
  model : Jlu.RNNBasedJLU;
  vocabs : list Vocabulary;
  progress : bool;
  p_bos : string;
  p_eos : string;
  p_unk : string;
  topk : Z
}.

(** The four parallel result columns: label candidates and their
    probabilities, intent candidates and theirs, one entry per example. *)
Definition Results : Type :=
  (list (list string) * list (list R)) * (list (list string) * list (list R)).

Definition select_data (data : list (list (list nat) * list nat))
    : result (list (list nat) * list nat) :=
  getitem data 0.

(** [self.model.predict] on the unpacked [data] and [self.topk]; the
    batch is recorded in [calls] as it is handed to the model. *)
Definition model_call (self : PredictorWithProgress)
    (data : list (list nat) * list nat)
    : M ((list (list (list nat)) * list (list R)) *
         (list (list nat) * list (list R))) :=
  modify (add_call data) ;;
  lift (Jlu.predict (model self) data.1 data.2 (topk self)).

(** [utils.tqdm(total=len(dataloader.dataset), disable=not
    self.show_progress)]: a counter at zero with the given total. *)
Definition on_run_started (self : PredictorWithProgress) (dl : DataLoader)
    : M unit :=
  modify (set_progress (length (dataset dl)) 0).

(** [self.progress.update(len(batch["string"]))]: a counter that was
    created disabled (no [--show-progress]) stays where it is. *)
Definition on_batch_started (self : PredictorWithProgress) (batch : Batch)
    : M unit :=
  if progress self
  then modify (λ σ, set_progress (progress_total σ)
                      (progress_n σ + length (b_string batch)) σ)
  else mret ().

Definition on_run_finished (self : PredictorWithProgress) : M unit := mret ().

(** [to_sent], as the retired predictor kept in the comments of
    [predict.py] has it. *)
Definition to_sent (self : PredictorWithProgress) (idx : list nat)
    (vocab : Vocabulary) : string :=
  Py.join " " ((λ w, default (p_unk self) (i2f vocab !! w)) <$> idx).

(** Modelled from the spec: the per-batch result conversion of
    [inference.Predictor], absent with [inference.py].  Every example
    yields its candidate label sequences, cut to the example's length and
    rendered through the label vocabulary, its candidate intents
    rendered through the intent vocabulary, and both rows of
    probabilities. *)
Definition batch_results (self : PredictorWithProgress) (lens : list nat)
    (out : (list (list (list nat)) * list (list R)) *
           (list (list nat) * list (list R))) : result Results :=
  let '((slot_candidates, slot_probs), (intent_candidates, intent_probs)) := out in
  label_vocab ← getitem (vocabs self) 1;
  intent_vocab ← getitem (vocabs self) 2;
  let labels :=
    zip_with (λ (cands : list (list nat)) l,
                (λ seq, to_sent self (take l seq) label_vocab) <$> cands)
             slot_candidates lens in
  let intents :=
    (λ cands : list nat, (λ c, to_sent self [c] intent_vocab) <$> cands)
      <$> intent_candidates in
  Ok ((labels, slot_probs), (intents, intent_probs)).

(** Appending one batch's rows to the running collection. *)
Definition extend (acc res : Results) : Results :=
  ((acc.1.1 ++ res.1.1, acc.1.2 ++ res.1.2),
   (acc.2.1 ++ res.2.1, acc.2.2 ++ res.2.2)).

(** Modelled from the spec: the batch loop of [inference.Predictor],
    absent with [inference.py].  For each batch in iteration order:
    [on_batch_started], selection of the fields the model needs, the
    model call, and the append of the batch's rows. *)
Fixpoint inference_loop (self : PredictorWithProgress) (bs : list Batch)
    (acc : Results) : M Results :=
  match bs with
  | [] => mret acc
  | batch :: rest =>
      on_batch_started self batch ;;
      data ← lift (select_data (b_tensor batch));
      out ← model_call self data;
      res ← lift (batch_results self data.2 out);
      inference_loop self rest (extend acc res)
  end.

(** Modelled from the spec: [inference.Predictor.inference]:
    [on_run_started], the batch loop, [on_run_finished]. *)
Definition inference (self : PredictorWithProgress) (dl : DataLoader)
    : M Results :=
  on_run_started self dl ;;
  res ← inference_loop self (batches dl) (([], []), ([], []));
  on_run_finished self ;;
  mret res.

Definition predict (self : PredictorWithProgress) (dl : DataLoader) : M Results :=
  inference self dl.

(** *** [save] and [generate] *)

(** [open(path, "w")] and [f.write(s)] *)
Definition fopen_w (path : string) : M unit := modify (set_file path "").

Definition fwrite (path s : string) : M unit :=
  modify (λ σ, set_file path (default "" (files σ !! path) +:+ s) σ).

Definition save (args : Args) (labels intents : list string) (pl pi : list R)
    : M unit :=
  let labels := (λ label, Py.join " " (Py.split label)) <$> labels in
  let pl := str_float env <$> pl in
  let pi := str_float env <$> pi in
  let samples := [labels; intents; pl; pi] in
  let fnames := [label_filename args; intent_filename args;
                 label_probs_filename args; intent_probs_filename args] in
  let paths := Py.path_join (save_dir args) <$> fnames in
  for_each (zip samples paths) (λ '(data, path),
    fopen_w path ;;
    for_each data (λ sample, fwrite path (sample +:+ Py.nl))).

Definition report_stats (args : Args) (labels intents : list string)
    (pl pi : list R) : M unit := mret ().

(** [[x[0] for x in xs]] *)
Definition firsts {A} (xs : list (list A)) : result (list A) :=
  result_mapM (λ x, getitem x 0) xs.

(** [generate].  Device selection and seeding are left out: the run has
    no randomness of its own, and placement does not change values. *)
Definition generate (args : Args) : M unit :=
  let vocab_paths := [word_vocab args; label_vocab args; intent_vocab args] in
  let vocabs := load_pkl env <$> vocab_paths in
  v0 ← lift (getitem vocabs 0);
  let test_dataset := prepare_dataset args v0 in
  test_dataloader ← lift (DataLoader_new test_dataset (batch_size args)
                            (TextSequenceBatchCollator (len <$> vocabs)));
  '(model, vocab) ← lift (prepare_model args vocabs);
  let vocabs := <[0 := vocab]> vocabs in
  let model := set_beam_size model (beam_size args) in
  let predictor := {| model := model;
                      vocabs := vocabs;
                      progress := show_progress args;
                      p_bos := bos args;
                      p_eos := eos args;
                      p_unk := unk args;
                      topk := top_k args |} in
  '((labels, pl), (intents, pi)) ← predict predictor test_dataloader;
  labels ← lift (firsts labels);
  intents ← lift (firsts intents);
  pl ← lift (firsts pl);
  pi ← lift (firsts pi);
  report_stats args labels intents pl pi ;;
  save args labels intents pl pi.

End with_env.

End Predict.

(** * Vocabulary of the statements

    Definitions that the statements below are written with: sorting routines
    meeting the contract of [torch.sort], a small model with its inputs, and
    the predicates and abbreviations the theorems use. *)

(** ** Two sorting routines *)

Module Sorts.

(** Whether index [i] goes in front of index [j] when they meet during
    insertion.  With [ties_first], [i] also goes in front of an equal
    value. *)
Definition in_front (ties_first : bool) (xs : list R) (i j : nat) : bool :=
  if ties_first then (if Rle_dec (nth j xs 0%R) (nth i xs 0%R) then true else false)
  else (if Rlt_dec (nth j xs 0%R) (nth i xs 0%R) then true else false).

Fixpoint insert_index (ties_first : bool) (xs : list R) (i : nat) (l : list nat)
    : list nat :=
  match l with
  | [] => [i]
  | j :: l' =>
      if in_front ties_first xs i j then i :: l
      else j :: insert_index ties_first xs i l'
  end.

(** Insertion sort of the positions of [xs] by descending value.  Positions
    are inserted from the last to the first, so with [ties_first] equal
    values come out by ascending position, and without it by descending
    position. *)
Definition argsort (ties_first : bool) (xs : list R) : list nat :=
  foldr (insert_index ties_first xs) [] (seq 0 (length xs)).

Definition by_value (xs : list R) (i j : nat) : Prop :=
  (nth i xs 0 >= nth j xs 0)%R.

End Sorts.

(** ** A small model: every module scores zero everywhere *)

Module Toy.
Import Jlu.

Definition zeros (n : nat) : list R := replicate n 0%R.

Definition embedding_fn (p : StateDict) (v d : nat) (w : list (list nat))
    : list (list (list R)) :=
  (λ row : list nat, (λ _, zeros d) <$> row) <$> w.

Definition rnn_fn (p : StateDict) (i h : nat) (w : list (list (list R)))
    (lens : list nat) : list (list (list R)) :=
  (λ _, replicate (Torch.size1 w) (zeros h)) <$> w.

Definition pooling_fn (p : StateDict) (d : nat) (hs : list (list (list R)))
    : list (list R) :=
  (λ _, zeros d) <$> hs.

Definition classifier_fn (p : StateDict) (h n : nat) (x : list (list R))
    : list (list R) :=
  (λ _, zeros n) <$> x.

(** Two sentences of three and two tokens, the second padded with id 5. *)
Definition w : list (list nat) := [[1; 2; 3]; [4; 0; 5]].
Definition lens : list nat := [3; 2].


End Toy.

(** ** Statements about [models/jlu.py] *)

Module JluSpec.
Import Torch Utils Jlu.


(** The decoder that [predict] builds. *)
Definition decoder_of (self : RNNBasedJLU) (w : list (list nat)) (lens : list nat) (topk : Z)
    : Utils.BeamSearchDecoder :=
  {| Utils.logprobs := log_softmax (forward self w None lens).1;
     Utils.lens := lens;
     Utils.beam_size := topk |}.

(** The padded length of a batch: dimension 1 of its label score tensor. *)
Definition max_len (self : RNNBasedJLU) (w : list (list nat)) (lens : list nat) : nat :=
  size1 (forward self w None lens).1.



End JluSpec.

(** ** Statements about [predict.py] *)

Module PredictSpec.
Import Py Predict.

(** A string without a line break. *)
Definition one_line (s : string) : Prop := mem newline s = false.

Definition empty_results : Results := (([], []), ([], [])).

(** A result collection with [n] entries in each of its four columns. *)
Definition column_lengths (r : Results) (n : nat) : Prop :=
  length r.1.1 = n ∧ length r.1.2 = n ∧ length r.2.1 = n ∧ length r.2.2 = n.

(** A result collection in which every entry has at least one candidate. *)
Definition has_candidates (r : Results) : Prop :=
  Forall (λ c, c ≠ []) r.1.1 ∧ Forall (λ c, c ≠ []) r.1.2 ∧
  Forall (λ c, c ≠ []) r.2.1 ∧ Forall (λ c, c ≠ []) r.2.2.

(** The inputs the model is called on for a batch. *)
Definition batch_data (batch : Batch) : option (list (list nat) * list nat) :=
  head (b_tensor batch).

(** One [with open(path, "w")] block of [save]. *)
Definition write_file (path : string) (rows : list string) : M unit :=
  fopen_w path ;; for_each rows (λ sample, fwrite path (sample +:+ nl)).

(** The four paths [save] writes to, in the order it writes them. *)
Definition paths (args : Args) : list string :=
  path_join (save_dir args)
    <$> [label_filename args; intent_filename args;
         label_probs_filename args; intent_probs_filename args].

(** A word as [str.split] yields them: not empty and free of whitespace. *)
Fixpoint no_space (s : string) : bool :=
  match s with
  | EmptyString => true
  | String c s' => negb (is_space c) && no_space s'
  end.

Definition token (w : string) : Prop := w ≠ EmptyString ∧ no_space w = true.

(** The rows that the last of a sequence of file writes put at [path], if
    any of them went there. *)
Fixpoint last_write (jobs : list (list string * string)) (path : string)
    : option (list string) :=
  match jobs with
  | [] => None
  | (rows, p) :: jobs' =>
      match last_write jobs' path with
      | Some r => Some r
      | None => if decide (path = p) then Some rows else None
      end
  end.

(** The same command line with another [--beam-size], [--top-k] or
    [--batch-size]. *)
Definition with_beam_size (args : Args) (b : Z) : Args :=
  {| show_progress := show_progress args;
     word_path := word_path args;
     word_vocab := word_vocab args;
     label_vocab := label_vocab args;
     intent_vocab := intent_vocab args;
     data_workers := data_workers args;
     seed := seed args;
     unk := unk args;
     eos := eos args;
     bos := bos args;
     ckpt_path := ckpt_path args;
     batch_size := batch_size args;
     save_dir := save_dir args;
     top_k := top_k args;
     label_filename := label_filename args;
     label_probs_filename := label_probs_filename args;
     intent_filename := intent_filename args;
     intent_probs_filename := intent_probs_filename args;
     beam_size := b;
     expand_vocab := expand_vocab args;
     gpu := gpu args;
     model_path := model_path args;
     hidden_dim := hidden_dim args;
     word_dim := word_dim args |}.

Definition with_top_k (args : Args) (k : Z) : Args :=
  {| show_progress := show_progress args;
     word_path := word_path args;
     word_vocab := word_vocab args;
     label_vocab := label_vocab args;
     intent_vocab := intent_vocab args;
     data_workers := data_workers args;
     seed := seed args;
     unk := unk args;
     eos := eos args;
     bos := bos args;
     ckpt_path := ckpt_path args;
     batch_size := batch_size args;
     save_dir := save_dir args;
     top_k := k;
     label_filename := label_filename args;
     label_probs_filename := label_probs_filename args;
     intent_filename := intent_filename args;
     intent_probs_filename := intent_probs_filename args;
     beam_size := beam_size args;
     expand_vocab := expand_vocab args;
     gpu := gpu args;
     model_path := model_path args;
     hidden_dim := hidden_dim args;
     word_dim := word_dim args |}.

Definition with_batch_size (args : Args) (n : Z) : Args :=
  {| show_progress := show_progress args;
     word_path := word_path args;
     word_vocab := word_vocab args;
     label_vocab := label_vocab args;
     intent_vocab := intent_vocab args;
     data_workers := data_workers args;
     seed := seed args;
     unk := unk args;
     eos := eos args;
     bos := bos args;
     ckpt_path := ckpt_path args;
     batch_size := n;
     save_dir := save_dir args;
     top_k := top_k args;
     label_filename := label_filename args;
     label_probs_filename := label_probs_filename args;
     intent_filename := intent_filename args;
     intent_probs_filename := intent_probs_filename args;
     beam_size := beam_size args;
     expand_vocab := expand_vocab args;
     gpu := gpu args;
     model_path := model_path args;
     hidden_dim := hidden_dim args;
     word_dim := word_dim args |}.

Section with_env.
Context (env : Env) `{Torch.Sort}.

(** The world once a batch has been started: the progress counter has
    advanced by the size of the batch, unless it is disabled. *)
Definition started (self : PredictorWithProgress) (batch : Batch) (σ : World)
    : World :=
  if progress self
  then set_progress (progress_total σ) (progress_n σ + length (b_string batch)) σ
  else σ.

(** What one batch contributes: selection of the model's inputs, the
    model call, the conversion of its output. *)
Definition batch_out (self : PredictorWithProgress) (batch : Batch)
    : result Results :=
  data ← select_data (b_tensor batch);
  out ← Jlu.predict (model self) data.1 data.2 (topk self);
  batch_results self data.2 out.

(** The four columns [save] writes, in the order it writes them. *)
Definition columns (labels intents : list string) (pl pi : list R)
    : list (list string) :=
  [(λ label, join " " (split label)) <$> labels; intents;
   str_float env <$> pl; str_float env <$> pi].

(** The objects [generate] builds before it starts predicting. *)
Definition run_vocabs (args : Args) : list Vocabulary :=
  load_pkl env <$> [word_vocab args; label_vocab args; intent_vocab args].

Definition run_dataset (args : Args) : list Example :=
  prepare_dataset env args (load_pkl env (word_vocab args)).

Definition run_collate (args : Args) : list Example → Batch :=
  TextSequenceBatchCollator (len <$> run_vocabs args).

Definition run_predictor (args : Args) (mdl : Jlu.RNNBasedJLU)
    (vocab : Vocabulary) : PredictorWithProgress :=
  {| model := set_beam_size mdl (beam_size args);
     vocabs := <[0 := vocab]> (run_vocabs args);
     progress := show_progress args;
     p_bos := bos args;
     p_eos := eos args;
     p_unk := unk args;
     topk := top_k args |}.

(** The model [prepare_model] builds from three vocabularies, before it
    loads the checkpoint. *)
Definition fresh_model (args : Args) (v0 v1 v2 : Vocabulary) : Jlu.RNNBasedJLU :=
  reset_parameters env
    (Jlu.__init__ (create_model_cls env (model_path args))
       (initial_parameters env)
       (hidden_dim args) (word_dim args) (len v0) (len v1) (len v2)).

(** The same model with the checkpoint's parameters [sd] loaded. *)
Definition loaded_model (args : Args) (v0 v1 v2 : Vocabulary)
    (sd : Jlu.StateDict) : Jlu.RNNBasedJLU :=
  with_state_dict (fresh_model args v0 v1 v2) sd.

End with_env.

End PredictSpec.

(** * Properties *)

(** ** Python strings *)

Module PyFacts.
Import Py PredictSpec.

Lemma append_nil_l (s : string) : "" +:+ s = s.
Proof. reflexivity. Qed.

Lemma append_cons c (s1 s2 : string) : String c s1 +:+ s2 = String c (s1 +:+ s2).
Proof. reflexivity. Qed.

Lemma append_assoc (s1 s2 s3 : string) : (s1 +:+ s2) +:+ s3 = s1 +:+ (s2 +:+ s3).
Proof.
  induction s1 as [|c s1 IH]; [done|]. by rewrite !append_cons, IH.
Qed.

Lemma append_nil_r (s : string) : s +:+ "" = s.
Proof. induction s as [|c s IH]; [done|]. by rewrite append_cons, IH. Qed.

Lemma mem_append c s1 s2 : mem c (s1 +:+ s2) = mem c s1 || mem c s2.
Proof.
  induction s1 as [|d s1 IH]; [done|]. rewrite append_cons. simpl.
  by destruct (decide (c = d)).
Qed.

Lemma one_line_append s1 s2 : one_line s1 → one_line s2 → one_line (s1 +:+ s2).
Proof. unfold one_line. intros H1 H2. by rewrite mem_append, H1, H2. Qed.

Lemma is_space_newline : is_space newline = true.
Proof. reflexivity. Qed.

Lemma one_line_snoc cur c :
  one_line cur → is_space c = false → one_line (cur +:+ String c "").
Proof.
  intros Hcur Hc. apply one_line_append; [done|]. unfold one_line. simpl.
  destruct (decide (newline = c)) as [<-|]; [|done].
  by rewrite is_space_newline in Hc.
Qed.

Lemma flush_one_line cur acc :
  one_line cur → Forall one_line acc → Forall one_line (flush cur acc).
Proof.
  intros Hcur Hacc. destruct cur; simpl; [done|].
  apply Forall_app. split; [done|]. by constructor.
Qed.

Lemma split_go_one_line s cur acc :
  one_line cur → Forall one_line acc → Forall one_line (split_go s cur acc).
Proof.
  revert cur acc. induction s as [|c s IH]; intros cur acc Hcur Hacc; simpl.
  - by apply flush_one_line.
  - destruct (is_space c) eqn:Hc.
    + apply IH; [done|]. by apply flush_one_line.
    + apply IH; [|done]. by apply one_line_snoc.
Qed.

Lemma split_one_line s : Forall one_line (split s).
Proof. by apply split_go_one_line. Qed.

Lemma join_one_line sep ws :
  one_line sep → Forall one_line ws → one_line (join sep ws).
Proof.
  intros Hsep. induction 1 as [|w ws Hw Hws IH]; simpl; [done|].
  destruct ws as [|w' ws]; [done|].
  apply one_line_append; [done|]. by apply one_line_append.
Qed.

(** What [save] does to a label string leaves no line break in it. *)
Lemma normalised_one_line s : one_line (join " " (split s)).
Proof. apply join_one_line; [done|]. apply split_one_line. Qed.

Lemma lines_go_row row rest cur :
  one_line row →
  lines_go (row +:+ nl +:+ rest) cur = (cur +:+ row) :: lines_go rest "".
Proof.
  revert cur. induction row as [|c row IH]; intros cur Hrow.
  - rewrite append_nil_l. unfold nl. rewrite append_cons, append_nil_l. simpl.
    destruct (decide (newline = newline)); [|done]. by rewrite append_nil_r.
  - rewrite append_cons. simpl. unfold one_line in Hrow. simpl in Hrow.
    destruct (decide (newline = c)) as [|Hne]; [done|].
    destruct (decide (c = newline)) as [|_]; [done|].
    rewrite IH by done. by rewrite append_assoc, append_cons, append_nil_l.
Qed.

(** Reading back a text written line by line gives the lines written. *)
Lemma lines_unlines rows : Forall one_line rows → lines (unlines rows) = rows.
Proof.
  unfold lines. induction 1 as [|row rows Hrow _ IH]; simpl; [done|].
  rewrite lines_go_row by done. simpl. by rewrite IH.
Qed.

End PyFacts.

(** ** Tensor operations *)

Module TorchFacts.
Import Torch.

Lemma length_slice_to {A} (k : Z) (row : list A) :
  (0 ≤ k)%Z → length (slice_to k row) = Z.to_nat k `min` length row.
Proof.
  intros Hk. unfold slice_to.
  destruct (Z.leb_spec 0 k) as [_|?]; [|lia].
  by rewrite length_take.
Qed.

Lemma slice_to_take {A} (k : Z) (row : list A) :
  (0 ≤ k)%Z → slice_to k row = take (Z.to_nat k) row.
Proof.
  intros Hk. unfold slice_to. by destruct (Z.leb_spec 0 k) as [_|?]; [|lia].
Qed.

Lemma length_softmax_row xs : length (softmax_row xs) = length xs.
Proof. unfold softmax_row. by rewrite length_fmap. Qed.

Lemma length_log_softmax_row xs : length (log_softmax_row xs) = length xs.
Proof. unfold log_softmax_row. by rewrite length_fmap. Qed.

Lemma nth_softmax_row xs i :
  i < length xs →
  nth i (softmax_row xs) 0%R
  = (Rtrigo_def.exp (nth i xs 0) / sum_list (Rtrigo_def.exp <$> xs))%R.
Proof.
  intros Hi. unfold softmax_row.
  destruct (lookup_lt_is_Some_2 xs i Hi) as [x Hx].
  rewrite (nth_lookup_Some _ _ _ _ Hx).
  apply nth_lookup_Some. by rewrite list_lookup_fmap, Hx.
Qed.

Section sort.
Context `{Sort}.

Lemma length_argsort_desc xs : length (argsort_desc xs) = length xs.
Proof. by rewrite (Permutation_length (argsort_desc_perm xs)), length_seq. Qed.

Lemma argsort_desc_lt xs i : i ∈ argsort_desc xs → i < length xs.
Proof. rewrite (argsort_desc_perm xs), elem_of_seq. lia. Qed.

Lemma argsort_desc_elem xs i : i < length xs → i ∈ argsort_desc xs.
Proof. rewrite (argsort_desc_perm xs), elem_of_seq. lia. Qed.

Lemma argsort_desc_NoDup xs : NoDup (argsort_desc xs).
Proof. rewrite (argsort_desc_perm xs). apply NoDup_seq. Qed.

Lemma argsort_desc_StronglySorted xs :
  StronglySorted Rge (gather xs (argsort_desc xs)).
Proof.
  apply Sorted_StronglySorted; [|apply argsort_desc_sorted].
  intros x y z. apply Rge_trans.
Qed.
End sort.

Lemma length_view_3d {A} b l (rows : list (list A)) :
  length (view_3d b l rows) = b.
Proof. unfold view_3d. by rewrite length_fmap, length_seq. Qed.

Lemma view_3d_lookup {A} b l (rows : list (list A)) i g :
  view_3d b l rows !! i = Some g → i < b ∧ g = take l (drop (i * l) rows).
Proof.
  unfold view_3d. rewrite list_lookup_fmap.
  destruct (seq 0 b !! i) as [j|] eqn:E; [|done].
  apply lookup_seq in E as [-> ?]. simpl. intros [= <-]. done.
Qed.

Lemma view_3d_Forall {A} (P : list A → Prop) b l rows :
  Forall P rows → Forall (Forall P) (view_3d b l rows).
Proof.
  intros HP. apply Forall_lookup. intros i g [_ ->]%view_3d_lookup.
  by apply Forall_take, Forall_drop.
Qed.

Lemma length_concat_rect {A} (t : list (list A)) l :
  Forall (λ r, length r = l) t → length (concat t) = length t * l.
Proof.
  induction 1 as [|r t Hr _ IH]; simpl; [done|].
  rewrite length_app, IH, Hr. lia.
Qed.

Lemma view_3d_rect {A} b l (rows : list (list A)) :
  length rows = b * l → Forall (λ g, length g = l) (view_3d b l rows).
Proof.
  intros Hlen. apply Forall_lookup. intros i g [Hi ->]%view_3d_lookup.
  rewrite length_take, length_drop. nia.
Qed.

Lemma size1_rect {A} (t : list (list A)) l :
  t ≠ [] → Forall (λ r, length r = l) t → size1 t = l.
Proof. destruct t; [done|]. intros _ Ht. by inversion Ht. Qed.

Lemma Forall_size1 {A} (t : list (list A)) l :
  Forall (λ r, length r = l) t → Forall (λ r, length r = size1 t) t.
Proof.
  intros Ht. destruct t as [|r t]; [done|].
  simpl. inversion Ht as [|?? Hr Ht']; subst. done.
Qed.

End TorchFacts.

(** ** The two sorting routines meet the contract of [torch.sort] *)

Module SortsFacts.
Import Sorts.

Lemma insert_index_perm b xs i l : insert_index b xs i l ≡ₚ i :: l.
Proof.
  induction l as [|j l IH]; simpl; [done|].
  destruct (in_front b xs i j); [done|].
  rewrite IH. apply Permutation_swap.
Qed.

Lemma argsort_perm b xs : argsort b xs ≡ₚ seq 0 (length xs).
Proof.
  unfold argsort. induction (seq 0 (length xs)) as [|i l IH]; simpl; [done|].
  by rewrite insert_index_perm, IH.
Qed.

Lemma in_front_true b xs i j : in_front b xs i j = true → by_value xs i j.
Proof.
  unfold in_front, by_value.
  destruct b; [destruct (Rle_dec _ _)|destruct (Rlt_dec _ _)]; intros; try done; lra.
Qed.

Lemma in_front_false b xs i j : in_front b xs i j = false → by_value xs j i.
Proof.
  unfold in_front, by_value.
  destruct b; [destruct (Rle_dec _ _)|destruct (Rlt_dec _ _)]; intros; try done; lra.
Qed.

Lemma insert_index_HdRel b xs i j l :
  by_value xs j i → HdRel (by_value xs) j l →
  HdRel (by_value xs) j (insert_index b xs i l).
Proof.
  intros Hji Hl. destruct l as [|j' l]; simpl; [by constructor|].
  destruct (in_front b xs i j'); constructor; [done|].
  by inversion Hl.
Qed.

Lemma insert_index_Sorted b xs i l :
  Sorted (by_value xs) l → Sorted (by_value xs) (insert_index b xs i l).
Proof.
  induction 1 as [|j l Hl IH Hhd]; simpl; [by repeat constructor|].
  destruct (in_front b xs i j) eqn:E.
  - constructor; [by constructor|]. constructor. by apply in_front_true in E.
  - constructor; [done|]. apply insert_index_HdRel; [|done].
    by apply in_front_false in E.
Qed.

Lemma argsort_Sorted b xs : Sorted Rge (Torch.gather xs (argsort b xs)).
Proof.
  unfold Torch.gather. apply (Sorted_fmap _ (by_value xs)); [done|].
  unfold argsort. induction (seq 0 (length xs)) as [|i l IH]; simpl; [constructor|].
  by apply insert_index_Sorted.
Qed.

(** Equal values by ascending position. *)
Definition stable : Torch.Sort :=
  {| Torch.argsort_desc := argsort true;
     Torch.argsort_desc_perm := argsort_perm true;
     Torch.argsort_desc_sorted := argsort_Sorted true |}.



Lemma argsort_stable_pair (x : R) : argsort true [x; x] = [0; 1].
Proof.
  unfold argsort. simpl. unfold in_front. simpl.
  destruct (Rle_dec x x) as [_|?]; [done|lra].
Qed.

Lemma argsort_single b (x : R) : argsort b [x] = [0].
Proof. done. Qed.

End SortsFacts.

(** ** The beam-search decoder *)

Module UtilsFacts.
Import Torch Utils JluSpec.

Lemma sum_list_app xs ys : sum_list (xs ++ ys) = (sum_list xs + sum_list ys)%R.
Proof.
  unfold sum_list. induction xs as [|x xs IH]; simpl; [lra|]. rewrite IH. lra.
Qed.

Lemma insert_hyp_perm h beam : insert_hyp h beam ≡ₚ h :: beam.
Proof.
  induction beam as [|h' beam IH]; simpl; [done|].
  destruct (Rlt_dec _ _); [done|]. rewrite IH. apply Permutation_swap.
Qed.

Lemma sort_hyps_perm hs : sort_hyps hs ≡ₚ hs.
Proof.
  unfold sort_hyps.
  enough (∀ acc, foldl (flip insert_hyp) acc hs ≡ₚ acc ++ hs) as Hgen by apply Hgen.
  induction hs as [|h hs IH]; intros acc; simpl.
  - by rewrite app_nil_r.
  - rewrite IH. unfold flip. rewrite insert_hyp_perm. apply Permutation_middle.
Qed.

Lemma length_sort_hyps hs : length (sort_hyps hs) = length hs.
Proof. by rewrite sort_hyps_perm. Qed.

Lemma length_extend row h : length (extend row h) = length row.
Proof. unfold extend. by rewrite length_imap. Qed.

Lemma length_bind_extend row (beam : list Hyp) :
  length (beam ≫= extend row) = length beam * length row.
Proof.
  induction beam as [|h beam IH]; [done|].
  rewrite bind_cons, length_app, length_extend, IH. simpl. lia.
Qed.

Lemma length_beam_init k row : length (beam_init k row) = k `min` length row.
Proof.
  unfold beam_init. by rewrite length_take, length_sort_hyps, length_imap.
Qed.

Lemma length_beam_step k beam row :
  length (beam_step k beam row) = k `min` (length beam * length row).
Proof.
  unfold beam_step. by rewrite length_take, length_sort_hyps, length_bind_extend.
Qed.







Lemma length_foldl_beam_step k beam rest :
  0 < k → beam ≠ [] → Forall (λ row : list R, row ≠ []) rest →
  foldl (beam_step k) beam rest ≠ [].
Proof.
  intros Hk. revert beam. induction rest as [|row rest IH]; intros beam Hb Hrest;
    simpl; [done|].
  inversion Hrest as [|?? Hrow Hrest']; subst.
  apply IH; [|done].
  intros Hnil. apply (f_equal length) in Hnil. rewrite length_beam_step in Hnil.
  destruct beam; [done|]. destruct row; [done|]. simpl in Hnil. lia.
Qed.

(** With room for one hypothesis and at least one class per position, the
    beam of an example with at least one position is never empty. *)
Lemma decode_example_nonempty k rows len :
  0 < k → 0 < len → rows ≠ [] → Forall (λ row : list R, row ≠ []) rows →
  decode_example k rows len ≠ [].
Proof.
  intros Hk Hlen Hrows Hne. unfold decode_example.
  destruct rows as [|row0 rows]; [done|]. destruct len as [|len]; [lia|]. simpl.
  inversion Hne as [|?? Hrow0 Hne']; subst.
  apply length_foldl_beam_step; [done| |by apply Forall_take].
  intros Hnil. apply (f_equal length) in Hnil. rewrite length_beam_init in Hnil.
  destruct row0; [done|]. simpl in Hnil. lia.
Qed.


Lemma decode_zero_length bs : 0 ∈ lens bs → decode bs = Err InvalidInputError.
Proof. intros Hz. unfold decode. by rewrite decide_True. Qed.

Lemma decode_Ok bs :
  0 ∉ lens bs → length (logprobs bs) = length (lens bs) →
  decode bs =
  Ok ((λ beam : list Hyp, fst <$> beam)
        <$> zip_with (decode_example (Z.to_nat (beam_size bs))) (logprobs bs) (lens bs),
      (λ beam : list Hyp, snd <$> beam)
        <$> zip_with (decode_example (Z.to_nat (beam_size bs))) (logprobs bs) (lens bs)).
Proof. intros Hz Hlen. unfold decode. by rewrite decide_False, decide_True. Qed.

Lemma decode_Ok_inv bs res :
  decode bs = Ok res →
  (0 ∉ lens bs) ∧ length (logprobs bs) = length (lens bs).
Proof.
  unfold decode. destruct (decide (0 ∈ lens bs)); [done|].
  by destruct (decide (length (logprobs bs) = length (lens bs))).
Qed.

End UtilsFacts.

(** ** [forward] and [predict] *)

Module JluFacts.
Import Torch TorchFacts Jlu JluSpec UtilsFacts.

Section forward.
Context (self : RNNBasedJLU).

Lemma length_call_rnn w lens : length (call_rnn self w lens) = length w.
Proof. apply rnn_batch. Qed.

Lemma length_forward_igts w s lens : length (forward self w s lens).2 = length w.
Proof.
  unfold forward, call_classifier, call_pooling, call_rnn, call_embeds. simpl.
  by rewrite classifier_rows, pooling_batch, rnn_batch, embedding_batch.
Qed.

Lemma forward_igts_cols w s lens :
  Forall (λ r, length r = clf_num_labels (intent_classifier self))
         (forward self w s lens).2.
Proof. unfold forward, call_classifier. simpl. apply classifier_cols. Qed.

Lemma length_forward_lgts w s lens : length (forward self w s lens).1 = length w.
Proof.
  unfold forward, _forward_slots, call_rnn, call_embeds. simpl.
  by rewrite length_view_3d, rnn_batch, embedding_batch.
Qed.

Lemma forward_lgts_cols w s lens :
  Forall (Forall (λ r, length r = clf_num_labels (slot_classifier self)))
         (forward self w s lens).1.
Proof.
  unfold forward, _forward_slots, call_classifier. simpl.
  apply view_3d_Forall, classifier_cols.
Qed.

Lemma forward_lgts_rect w s lens :
  Forall (λ rows, length rows = size1 (forward self w s lens).1)
         (forward self w s lens).1.
Proof.
  unfold forward, _forward_slots, call_classifier. simpl.
  eapply Forall_size1, view_3d_rect.
  rewrite classifier_rows. unfold view_2d.
  apply length_concat_rect. apply rnn_rect.
Qed.

End forward.

Section predict.
Context `{Sort} (self : RNNBasedJLU).

Lemma predict_unfold w lens topk :
  predict self w lens topk =
  match Utils.decode (decoder_of self w lens topk) with
  | Ok (slot_candidates, slot_logprobs) =>
      Ok ((slot_candidates, Torch.exp slot_logprobs),
          (slice_to topk <$> (sort (softmax (forward self w None lens).2)).2,
           slice_to topk <$> (sort (softmax (forward self w None lens).2)).1))
  | Err e => Err e
  end.
Proof.
  unfold predict, decoder_of. destruct (forward self w None lens) as [lgts igts].
  simpl. destruct (Utils.decode _) as [[sc lp]|e]; done.
Qed.

Lemma length_log_softmax t : length (log_softmax t) = length t.
Proof. unfold log_softmax. by rewrite length_fmap. Qed.

Lemma size1_log_softmax t : size1 (log_softmax t) = size1 t.
Proof. destruct t; simpl; [done|]. by rewrite length_fmap. Qed.

Lemma predict_zero_length w lens topk :
  0 ∈ lens → predict self w lens topk = Err InvalidInputError.
Proof.
  intros Hz. rewrite predict_unfold, decode_zero_length; done.
Qed.

Lemma predict_Ok w lens topk :
  0 ∉ lens → length w = length lens →
  predict self w lens topk =
  let logp := log_softmax (forward self w None lens).1 in
  let hyps := zip_with (Utils.decode_example (Z.to_nat topk)) logp lens in
  let sorted := sort (softmax (forward self w None lens).2) in
  Ok (((λ beam : list Utils.Hyp, fst <$> beam) <$> hyps,
       Torch.exp ((λ beam : list Utils.Hyp, snd <$> beam) <$> hyps)),
      (slice_to topk <$> sorted.2, slice_to topk <$> sorted.1)).
Proof.
  intros Hz Hlen. rewrite predict_unfold, decode_Ok; [done|done|].
  simpl. rewrite length_log_softmax, <- Hlen.
  apply (length_forward_lgts self w None lens).
Qed.

End predict.


Lemma slice_to_prefix {A} (k : Z) (row : list A) :
  ∃ n, slice_to k row = take n row.
Proof. unfold slice_to. destruct (0 <=? k)%Z; eauto. Qed.

Lemma max_len_size1 self w lens : max_len self w lens = size1 w.
Proof.
  unfold max_len, forward, _forward_slots. simpl.
  set (hs := call_rnn self (call_embeds self w) lens).
  assert (length hs = length w) as Hb
    by (unfold hs, call_rnn, call_embeds; by rewrite rnn_batch, embedding_batch).
  assert (size1 hs = size1 w) as Hl
    by (unfold hs, call_rnn, call_embeds; by rewrite rnn_len, embedding_len).
  assert (length (call_classifier self (slot_classifier self) (view_2d hs))
          = length hs * size1 hs) as Ho.
  { unfold call_classifier. rewrite classifier_rows. unfold view_2d.
    apply length_concat_rect. apply rnn_rect. }
  rewrite Hb, Hl in *. destruct w as [|r w]; simpl in *; [done|].
  rewrite length_take, drop_0, Ho. lia.
Qed.

Section predict.
Context `{Sort} (self : RNNBasedJLU).

(** The shape of what [predict] returns for a well-formed batch. *)
Lemma predict_slots w lens topk :
  0 ∉ lens → length w = length lens →
  ∃ sc sp ic ip, predict self w lens topk = Ok ((sc, sp), (ic, ip)) ∧
    length sc = length w ∧ length sp = length w ∧
    ∀ i rows len, log_softmax (forward self w None lens).1 !! i = Some rows →
      lens !! i = Some len →
      length rows = max_len self w lens ∧
      Forall (λ r, length r = clf_num_labels (slot_classifier self)) rows ∧
      sc !! i = Some (fst <$> Utils.decode_example (Z.to_nat topk) rows len) ∧
      sp !! i = Some ((λ h : Utils.Hyp, Rtrigo_def.exp h.2)
                        <$> Utils.decode_example (Z.to_nat topk) rows len).
Proof.
  intros Hz Hlen. rewrite (predict_Ok self w lens topk Hz Hlen). cbv zeta.
  eexists _, _, _, _. split; [done|].
  assert (length (log_softmax (forward self w None lens).1) = length w) as Hl
    by (by rewrite length_log_softmax, length_forward_lgts).
  split; [|split].
  - rewrite length_fmap, length_zip_with. lia.
  - unfold Torch.exp. rewrite !length_fmap, length_zip_with. lia.
  - intros i rows len Hrows Hi.
    unfold log_softmax in Hrows. rewrite list_lookup_fmap in Hrows.
    destruct ((forward self w None lens).1 !! i) as [rows0|] eqn:Hrows0; [|done].
    simpl in Hrows. injection Hrows as <-.
    pose proof (forward_lgts_rect self w None lens) as Hrect.
    pose proof (forward_lgts_cols self w None lens) as Hcols.
    rewrite Forall_lookup in Hrect, Hcols.
    specialize (Hrect _ _ Hrows0). specialize (Hcols _ _ Hrows0).
    split; [by rewrite length_fmap|]. split.
    { apply Forall_fmap. eapply Forall_impl; [done|]. simpl.
      intros r ?. by rewrite length_log_softmax_row. }
    fold (log_softmax (forward self w None lens).1).
    unfold Torch.exp.
    rewrite !list_lookup_fmap, lookup_zip_with.
    assert (log_softmax (forward self w None lens).1 !! i
            = Some (log_softmax_row <$> rows0)) as ->
      by (unfold log_softmax; by rewrite list_lookup_fmap, Hrows0).
    rewrite Hi. simpl. split; [done|]. by rewrite <- list_fmap_compose.
Qed.

Lemma predict_intents w lens topk :
  0 ∉ lens → length w = length lens →
  ∃ sc sp ic ip, predict self w lens topk = Ok ((sc, sp), (ic, ip)) ∧
    length ic = length w ∧ length ip = length w ∧
    ∀ i scores, (forward self w None lens).2 !! i = Some scores →
      length scores = clf_num_labels (intent_classifier self) ∧
      ic !! i = Some (slice_to topk (argsort_desc (softmax_row scores))) ∧
      ip !! i = Some (slice_to topk (gather (softmax_row scores)
                                       (argsort_desc (softmax_row scores)))).
Proof.
  intros Hz Hlen. rewrite (predict_Ok self w lens topk Hz Hlen). cbv zeta.
  eexists _, _, _, _. split; [done|].
  pose proof (length_forward_igts self w None lens) as Hl.
  unfold sort, softmax. cbn [fst snd]. rewrite !length_fmap.
  split; [done|]. split; [done|].
  intros i scores Hi.
  pose proof (forward_igts_cols self w None lens) as Hcols.
  rewrite Forall_lookup in Hcols. split; [by eapply Hcols|].
  rewrite !list_lookup_fmap, Hi. done.
Qed.

End predict.

End JluFacts.

(** ** The small model *)

Module ToyModel.
Import Jlu Toy.

Lemma rnn_fn_rect p i h w lens :
  Forall (λ r, length r = Torch.size1 (rnn_fn p i h w lens)) (rnn_fn p i h w lens).
Proof.
  apply (TorchFacts.Forall_size1 _ (Torch.size1 w)).
  unfold rnn_fn. apply Forall_fmap, Forall_true. intros r. simpl.
  by rewrite length_replicate.
Qed.

Lemma embedding_fn_len p v d w :
  Torch.size1 (embedding_fn p v d w) = Torch.size1 w.
Proof. destruct w; simpl; [done|]. by rewrite length_fmap. Qed.

Lemma rnn_fn_len p i h w lens : Torch.size1 (rnn_fn p i h w lens) = Torch.size1 w.
Proof. destruct w; simpl; [done|]. by rewrite length_replicate. Qed.

Lemma classifier_fn_cols p h n x :
  Forall (λ r, length r = n) (classifier_fn p h n x).
Proof.
  unfold classifier_fn. apply Forall_fmap, Forall_true. intros r. simpl.
  apply length_replicate.
Qed.

Definition embedding_cls : EmbeddingCls :=
  {| embedding_forward := embedding_fn;
     embedding_batch := λ p v d w, length_fmap _ w;
     embedding_len := embedding_fn_len |}.

Definition rnn_cls : RNNCls :=
  {| rnn_forward := rnn_fn;
     rnn_batch := λ p i h w lens, length_fmap _ w;
     rnn_len := rnn_fn_len;
     rnn_rect := rnn_fn_rect |}.

Definition pooling_cls : PoolingCls :=
  {| pooling_forward := pooling_fn;
     pooling_batch := λ p d hs, length_fmap _ hs |}.

Definition classifier_cls : ClassifierCls :=
  {| classifier_forward := classifier_fn;
     classifier_rows := λ p h n x, length_fmap _ x;
     classifier_cols := classifier_fn_cols |}.

Definition cls : ModelCls :=
  {| Jlu.embedding := embedding_cls;
     Jlu.rnn_cls := rnn_cls;
     Jlu.pooling_cls := pooling_cls;
     Jlu.slot_classifier_cls := classifier_cls;
     Jlu.intent_classifier_cls := classifier_cls |}.

(** Hidden and word dimension 1, 5 words, 3 slot labels, 1 intent. *)
Definition model : RNNBasedJLU := __init__ cls ∅ 1 1 5 3 1.

Lemma forward_w :
  forward model w None lens
  = (replicate 2 (replicate 3 (zeros 4)), replicate 2 (zeros 2)).
Proof. reflexivity. Qed.

End ToyModel.

(** ** Claims about [models/jlu.py] *)

Module JluClaims.
Import Torch TorchFacts Jlu JluSpec UtilsFacts JluFacts.

Section predict.
Context `{Sort} (self : RNNBasedJLU).


(** C5.  A batch with an example of length 0 makes [predict] fail with
    [InvalidInputError]; no candidate set is returned. *)
Theorem predict_zero_length_invalid w lens topk :
  0 ∈ lens → predict self w lens topk = Err InvalidInputError.
Proof. apply predict_zero_length. Qed.


(** C3.  For a well-formed batch and [k >= 1], [predict] returns, for
    every example, [min k n] intent ids out of the [n] intent classes
    (so a [k] beyond [n] is clamped), without repetition, each paired
    with the normalised exponential of its score; the probabilities are
    in non-increasing order and no class left out has a higher
    probability than a class returned. *)
Theorem predict_intent_topk w lens topk :
  (1 ≤ topk)%Z → 0 ∉ lens → length w = length lens →
  ∃ sc sp ic ip, predict self w lens topk = Ok ((sc, sp), (ic, ip)) ∧
    length ic = length w ∧ length ip = length w ∧
    ∀ i scores, (forward self w None lens).2 !! i = Some scores →
      ∃ ids ps, ic !! i = Some ids ∧ ip !! i = Some ps ∧
        length ids = Z.to_nat topk `min` length scores ∧
        NoDup ids ∧
        (∀ id, id ∈ ids → id < length scores) ∧
        ps = (λ id, (Rtrigo_def.exp (nth id scores 0)
                     / sum_list (Rtrigo_def.exp <$> scores))%R) <$> ids ∧
        Sorted Rge ps ∧
        (∀ c p, c < length scores → c ∉ ids → p ∈ ps →
           (Rtrigo_def.exp (nth c scores 0)
            / sum_list (Rtrigo_def.exp <$> scores) <= p)%R).
Proof.
  intros Hk Hz Hlen.
  destruct (predict_intents self w lens topk Hz Hlen)
    as (sc & sp & ic & ip & Hp & Hic & Hip & Hrows).
  exists sc, sp, ic, ip. do 3 (split; [done|]).
  intros i scores Hi. destruct (Hrows i scores Hi) as (_ & Hici & Hipi).
  rewrite slice_to_take in Hici by lia. rewrite slice_to_take in Hipi by lia.
  set (probs := softmax_row scores) in *.
  set (idx := argsort_desc probs) in *.
  set (n := Z.to_nat topk) in *.
  assert (length probs = length scores) as Hlp by apply length_softmax_row.
  assert (∀ id, id ∈ idx → id < length scores) as Hidx.
  { intros id Hid. rewrite <- Hlp. by apply argsort_desc_lt. }
  pose proof (argsort_desc_StronglySorted probs) as Hsorted. fold idx in Hsorted.
  pose proof (argsort_desc_NoDup probs) as Hnd. fold idx in Hnd.
  rewrite <- (take_drop n idx) in Hsorted, Hnd.
  unfold gather in Hsorted. rewrite fmap_app in Hsorted.
  apply NoDup_app in Hnd as (Hnd1 & Hnd12 & _).
  exists (take n idx), (take n (gather probs idx)).
  split; [done|]. split; [done|]. split.
  { rewrite length_take. unfold idx. rewrite length_argsort_desc, Hlp. done. }
  split; [done|]. split.
  { intros id Hid. apply Hidx. eapply elem_of_take in Hid as (? & ? & ?).
    by eapply list_elem_of_lookup_2. }
  assert (take n (gather probs idx)
          = (λ id, (Rtrigo_def.exp (nth id scores 0)
                    / sum_list (Rtrigo_def.exp <$> scores))%R) <$> take n idx)
    as Hps.
  { unfold gather. rewrite <- fmap_take. apply list_fmap_ext.
    intros j id Hj. unfold probs. apply nth_softmax_row, Hidx.
    apply lookup_take_Some in Hj as [Hj _]. by eapply list_elem_of_lookup_2. }
  split; [done|]. split.
  { unfold gather. rewrite <- fmap_take.
    by apply StronglySorted_app_1_l, StronglySorted_Sorted in Hsorted. }
  intros c p Hc Hnotin Hpin.
  assert (c ∈ drop n idx) as Hcin.
  { assert (c ∈ idx) as Hcidx
      by (apply argsort_desc_elem; by rewrite Hlp).
    rewrite <- (take_drop n idx) in Hcidx.
    apply elem_of_app in Hcidx as [?|?]; done. }
  rewrite <- (nth_softmax_row scores c Hc). fold probs.
  apply Rge_le.
  eapply (StronglySorted_app_1_elem_of _ _ _ _ _ Hsorted).
  - unfold gather in Hpin. by rewrite <- fmap_take in Hpin.
  - by apply (list_elem_of_fmap_2 (λ i, nth i probs 0%R)) in Hcin.
Qed.


End predict.

Section init.
Context `{Sort}.


End init.

(** *** Runs on the small model *)

#[local] Existing Instance SortsFacts.stable.

Lemma zero_not_in_lens : 0 ∉ Toy.lens.
Proof.
  unfold Toy.lens. rewrite !not_elem_of_cons. split; [done|]. split; [done|].
  apply not_elem_of_nil.
Qed.



Lemma predict_zero_length_invalid_witness :
  0 ∈ [2; 0] ∧
  predict ToyModel.model [[1; 2]; [5; 5]] [2; 0] 1 = Err InvalidInputError.
Proof.
  assert (0 ∈ [2; 0]) as Hz by (rewrite !elem_of_cons; auto).
  split; [exact Hz|].
  apply (predict_zero_length_invalid ToyModel.model [[1; 2]; [5; 5]] [2; 0] 1 Hz).
Defined.





#[local] Existing Instance SortsFacts.stable.

Lemma predict_intent_topk_witness :
  (1 ≤ 5)%Z ∧ (0 ∉ Toy.lens) ∧ length Toy.w = length Toy.lens ∧
  ∃ sc sp ic ip, predict ToyModel.model Toy.w Toy.lens 5 = Ok ((sc, sp), (ic, ip)) ∧
    length ic = length Toy.w ∧ length ip = length Toy.w ∧
    ∀ i scores, (forward ToyModel.model Toy.w None Toy.lens).2 !! i = Some scores →
      ∃ ids ps, ic !! i = Some ids ∧ ip !! i = Some ps ∧
        length ids = Z.to_nat 5 `min` length scores ∧
        NoDup ids ∧
        (∀ id, id ∈ ids → id < length scores) ∧
        ps = (λ id, (Rtrigo_def.exp (nth id scores 0)
                     / sum_list (Rtrigo_def.exp <$> scores))%R) <$> ids ∧
        Sorted Rge ps ∧
        (∀ c p, c < length scores → c ∉ ids → p ∈ ps →
           (Rtrigo_def.exp (nth c scores 0)
            / sum_list (Rtrigo_def.exp <$> scores) <= p)%R).
Proof.
  split; [lia|]. split; [apply zero_not_in_lens|]. split; [reflexivity|].
  apply (predict_intent_topk ToyModel.model Toy.w Toy.lens 5);
    [lia|apply zero_not_in_lens|reflexivity].
Defined.




End JluClaims.

(** ** The run monad *)

Module MFacts.

Lemma bind_Ok {A B} (m : M A) (f : A → M B) σ a σ' :
  m σ = (Ok a, σ') → (m ≫= f) σ = f a σ'.
Proof. intros Hm. unfold mbind, M_bind. by rewrite Hm. Qed.


Lemma bind_lift_Ok {A B} (r : result A) (f : A → M B) σ a :
  r = Ok a → (lift r ≫= f) σ = f a σ.
Proof. intros ->. done. Qed.

Lemma bind_lift_Err {A B} (r : result A) (f : A → M B) σ e :
  r = Err e → (lift r ≫= f) σ = (Err e, σ).
Proof. intros ->. done. Qed.

Lemma bind_modify {B} (g : World → World) (f : unit → M B) σ :
  (modify g ≫= f) σ = f () (g σ).
Proof. done. Qed.

End MFacts.

(** ** [save] *)

Module SaveFacts.
Import Py PyFacts MFacts Predict PredictSpec.

Section save.
Context (env : Env).

(** Writing the rows of one column to an open file appends them, each
    with its newline, and touches nothing else. *)
Lemma for_each_fwrite path rows σ text :
  files σ !! path = Some text →
  ∃ σ', for_each rows (λ sample, fwrite path (sample +:+ nl)) σ = (Ok (), σ') ∧
    files σ' = <[path := text +:+ unlines rows]> (files σ) ∧
    progress_total σ' = progress_total σ ∧
    progress_n σ' = progress_n σ ∧
    calls σ' = calls σ.
Proof.
  revert σ text. induction rows as [|row rows IH]; intros σ text Htext.
  - exists σ. simpl. rewrite append_nil_r, insert_id by done. done.
  - simpl for_each.
    destruct (IH (set_file path (default "" (files σ !! path) +:+ (row +:+ nl)) σ)
                 (text +:+ (row +:+ nl)))
      as (σ' & Hrun & Hfiles & Hpt & Hpn & Hcalls).
    { simpl. rewrite Htext. simpl. apply lookup_insert_eq. }
    exists σ'. split; [exact Hrun|]. split; [|done].
    rewrite Hfiles. simpl. rewrite insert_insert_eq.
    by rewrite !append_assoc.
Qed.

Lemma write_file_spec path rows σ :
  ∃ σ', write_file path rows σ = (Ok (), σ') ∧
    files σ' = <[path := unlines rows]> (files σ) ∧
    progress_total σ' = progress_total σ ∧
    progress_n σ' = progress_n σ ∧
    calls σ' = calls σ.
Proof.
  unfold write_file.
  destruct (for_each_fwrite path rows (set_file path "" σ) "")
    as (σ' & Hrun & Hfiles & Hpt & Hpn & Hcalls).
  { simpl. apply lookup_insert_eq. }
  exists σ'. split; [exact Hrun|]. split; [|done].
  rewrite Hfiles. simpl. by rewrite insert_insert_eq.
Qed.

Lemma save_spec args labels intents pl pi σ :
  ∃ σ', save env args labels intents pl pi σ = (Ok (), σ') ∧
    files σ' = foldl (λ fs '(rows, path), <[path := unlines rows]> fs) (files σ)
                     (zip (columns env labels intents pl pi) (paths args)) ∧
    progress_total σ' = progress_total σ ∧
    progress_n σ' = progress_n σ ∧
    calls σ' = calls σ.
Proof.
  unfold save. fold (columns env labels intents pl pi). fold (paths args).
  generalize (zip (columns env labels intents pl pi) (paths args)). intros jobs.
  revert σ. induction jobs as [|[rows path] jobs IH]; intros σ.
  - exists σ. done.
  - simpl for_each. fold (write_file path rows).
    destruct (write_file_spec path rows σ) as (σ1 & Hrun & Hfiles & Hpt & Hpn & Hc).
    rewrite (bind_Ok _ _ _ _ _ Hrun).
    destruct (IH σ1) as (σ' & Hrun' & Hfiles' & Hpt' & Hpn' & Hc').
    exists σ'. split; [done|]. simpl. rewrite <- Hfiles.
    split; [done|]. split; [congruence|]. split; congruence.
Qed.

End save.

End SaveFacts.

(** ** The data loader *)

Module LoaderFacts.
Import Predict.

Lemma concat_chunks_fuel {A} fuel n (l : list A) :
  0 < n → length l ≤ fuel → concat (chunks_fuel fuel n l) = l.
Proof.
  intros Hn. revert l. induction fuel as [|fuel IH]; intros l Hl.
  - destruct l; [done|]. simpl in Hl. lia.
  - destruct l as [|x l]; [done|].
    cbn [chunks_fuel]. rewrite concat_cons, IH, take_drop; [done|].
    rewrite length_drop. simpl in *. lia.
Qed.

(** Put end to end, the batches give back the dataset. *)
Lemma concat_chunks {A} n (l : list A) : 0 < n → concat (chunks n l) = l.
Proof. intros Hn. by apply concat_chunks_fuel. Qed.

Lemma chunks_fuel_nonempty {A} fuel n (l : list A) :
  0 < n → Forall (λ c, c ≠ [] ∧ length c ≤ n) (chunks_fuel fuel n l).
Proof.
  intros Hn. revert l. induction fuel as [|fuel IH]; intros l; [constructor|].
  destruct l as [|x l]; [constructor|].
  cbn [chunks_fuel]. constructor; [|apply IH].
  split; [destruct n; [lia|done]|]. rewrite length_take. lia.
Qed.

Lemma chunks_nonempty {A} n (l : list A) :
  0 < n → Forall (λ c, c ≠ [] ∧ length c ≤ n) (chunks n l).
Proof. apply chunks_fuel_nonempty. Qed.

Lemma chunks_fuel_Forall {A} (P : A → Prop) fuel n (l : list A) :
  Forall P l → Forall (Forall P) (chunks_fuel fuel n l).
Proof.
  revert l. induction fuel as [|fuel IH]; intros l Hl; [constructor|].
  destruct l as [|x l]; [constructor|].
  cbn [chunks_fuel]. constructor; [by apply Forall_take|].
  apply IH. by apply Forall_drop.
Qed.

Lemma omap_lookup_seq {A} (l : list A) a len :
  a + len ≤ length l → omap (λ i, l !! i) (seq a len) = take len (drop a l).
Proof.
  revert a. induction len as [|len IH]; intros a Ha; simpl; [done|].
  destruct (lookup_lt_is_Some_2 l a) as [x Hx]; [lia|].
  rewrite Hx, IH by lia. rewrite (drop_S _ _ _ Hx). done.
Qed.

Lemma chunks_fuel_seq {A} (l : list A) fuel n a len :
  len = length l - a →
  (λ idxs : list nat, omap (λ i, l !! i) idxs) <$> chunks_fuel fuel n (seq a len)
  = chunks_fuel fuel n (drop a l).
Proof.
  revert a len. induction fuel as [|fuel IH]; intros a len Ha; [done|].
  destruct len as [|len].
  - simpl. rewrite drop_ge by lia. done.
  - destruct (lookup_lt_is_Some_2 l a) as [x Hx]; [lia|].
    rewrite (drop_S _ _ _ Hx). cbn [chunks_fuel seq fmap list_fmap]. f_equal.
    + change (a :: seq (S a) len) with (seq a (S len)).
      rewrite take_seq, omap_lookup_seq by lia.
      rewrite <- (drop_S _ _ _ Hx).
      destruct (Nat.min_spec n (S len)) as [[? ->]|[? ->]]; [done|].
      rewrite !take_ge by (rewrite length_drop; lia). done.
    + change (a :: seq (S a) len) with (seq a (S len)).
      rewrite drop_seq, IH by lia.
      rewrite <- (drop_S _ _ _ Hx), drop_drop. done.
Qed.

Section loader.
Context (env : Env).

(** Without shuffling, the batches are the collated consecutive groups of
    [batch_size] items of the dataset. *)
Lemma batches_sequential dl :
  shuffle dl = false →
  batches env dl = collate_fn dl <$> chunks (dl_batch_size dl) (dataset dl).
Proof.
  intros Hs. unfold batches, sampler, chunks. rewrite Hs, length_seq.
  rewrite <- (chunks_fuel_seq (dataset dl) _ _ 0 (length (dataset dl))) by lia.
  by rewrite <- list_fmap_compose.
Qed.

Lemma DataLoader_new_Ok data bs collate :
  (0 < bs)%Z →
  DataLoader_new data bs collate
  = Ok {| dataset := data; dl_batch_size := Z.to_nat bs;
          shuffle := false; collate_fn := collate |}.
Proof.
  intros Hbs. unfold DataLoader_new.
  destruct (Z.leb_spec bs 0); [lia|done].
Qed.

(** What a collated batch of non-empty sentences looks like. *)
Lemma collate_spec pad_idxs exs :
  exs ≠ [] → Forall (λ e, ex_tensor e ≠ []) exs →
  ∃ x lens,
    b_tensor (TextSequenceBatchCollator pad_idxs exs) = [(x, lens)] ∧
    b_string (TextSequenceBatchCollator pad_idxs exs) = ex_string <$> exs ∧
    length x = length exs ∧ length lens = length exs ∧
    (0 ∉ lens) ∧ 0 < Torch.size1 x.
Proof.
  intros Hne Hexs. eexists _, _. split; [done|]. split; [done|].
  rewrite !length_fmap. split; [done|]. split; [done|]. split.
  - intros (e & Hlen & He)%list_elem_of_fmap.
    rewrite Forall_forall in Hexs. specialize (Hexs _ He).
    by destruct (ex_tensor e).
  - destruct exs as [|e exs]; [done|]. simpl. rewrite length_resize.
    inversion Hexs as [|?? He _]; subst.
    destruct (ex_tensor e); [done|]. simpl. lia.
Qed.

End loader.

End LoaderFacts.

(** ** The predictor *)

Module PredictorFacts.
Import MFacts LoaderFacts Predict PredictSpec.
Import TorchFacts JluSpec UtilsFacts JluFacts.

Lemma foldl_extend_columns rs acc :
  foldl extend acc rs
  = ((acc.1.1 ++ concat ((λ r : Results, r.1.1) <$> rs),
      acc.1.2 ++ concat ((λ r : Results, r.1.2) <$> rs)),
     (acc.2.1 ++ concat ((λ r : Results, r.2.1) <$> rs),
      acc.2.2 ++ concat ((λ r : Results, r.2.2) <$> rs))).
Proof.
  revert acc. induction rs as [|r rs IH]; intros [[a b] [c d]]; simpl.
  - by rewrite !app_nil_r.
  - rewrite IH. simpl. by rewrite !app_assoc.
Qed.

Lemma foldl_extend_lengths (chunks : list (list Example)) rs :
  Forall2 (λ chunk r, column_lengths r (length chunk)) chunks rs →
  column_lengths (foldl extend empty_results rs) (length (concat chunks)).
Proof.
  rewrite foldl_extend_columns. unfold column_lengths. simpl.
  induction 1 as [|chunk r chunks rs (H1 & H2 & H3 & H4) _ (I1 & I2 & I3 & I4)];
    [done|].
  rewrite !fmap_cons, !concat_cons, !length_app. lia.
Qed.

Lemma foldl_extend_candidates rs :
  Forall has_candidates rs → has_candidates (foldl extend empty_results rs).
Proof.
  rewrite foldl_extend_columns. unfold has_candidates. simpl.
  induction 1 as [|r rs (H1 & H2 & H3 & H4) _ (I1 & I2 & I3 & I4)]; [done|].
  rewrite !fmap_cons, !concat_cons, !Forall_app. done.
Qed.

Lemma firsts_Ok {A} (xs : list (list A)) :
  Forall (λ c, c ≠ []) xs →
  ∃ ys, firsts xs = Ok ys ∧ Forall2 (λ c y, c !! 0 = Some y) xs ys.
Proof.
  unfold firsts. induction 1 as [|x xs Hx _ (ys & Hys & Hall)]; simpl.
  - exists []. split; [done|constructor].
  - destruct x as [|y x]; [done|]. simpl. rewrite Hys.
    exists (y :: ys). split; [done|]. by constructor.
Qed.

Lemma firsts_Err {A} (xs : list (list A)) :
  [] ∈ xs → firsts xs = Err IndexError.
Proof.
  unfold firsts. induction xs as [|x xs IH]; intros Hin.
  - by apply elem_of_nil in Hin.
  - destruct x as [|y x]; [done|]. simpl.
    apply elem_of_cons in Hin as [?|Hin]; [done|]. by rewrite IH.
Qed.

Section predictor.
Context (env : Env) `{Torch.Sort}.

Lemma bind_on_batch_started {B} self batch (f : unit → M B) σ :
  (on_batch_started self batch ≫= f) σ
  = f () (if progress self
          then set_progress (progress_total σ)
                 (progress_n σ + length (b_string batch)) σ
          else σ).
Proof.
  unfold on_batch_started. by destruct (progress self).
Qed.

Lemma inference_loop_Ok self bs rs acc σ :
  Forall2 (λ b r, batch_out self b = Ok r) bs rs →
  ∃ σ', inference_loop self bs acc σ = (Ok (foldl extend acc rs), σ') ∧
    files σ' = files σ ∧
    calls σ' = calls σ ++ omap batch_data bs ∧
    progress_total σ' = progress_total σ.
Proof.
  intros Hall. revert acc σ.
  induction Hall as [|b r bs rs Hb _ IH]; intros acc σ.
  - exists σ. simpl. by rewrite app_nil_r.
  - unfold batch_out, select_data, getitem in Hb.
    unfold batch_data at 1. rewrite <- head_lookup in Hb.
    cbn [inference_loop]. unfold select_data, getitem.
    rewrite bind_on_batch_started. rewrite <- head_lookup.
    destruct (head (b_tensor b)) as [data|] eqn:Hd; [|done].
    simpl in Hb.
    destruct (Jlu.predict (model self) data.1 data.2 (topk self)) as [out|e] eqn:Hp;
      [|done].
    simpl in Hb.
    set (σ1 := if progress self then _ else σ).
    assert (files σ1 = files σ ∧ calls σ1 = calls σ ∧
            progress_total σ1 = progress_total σ) as (Hf1 & Hc1 & Hpt1)
      by (unfold σ1; by destruct (progress self)).
    destruct (IH (extend acc r) (add_call data σ1)) as (σ' & Hrun & Hf & Hc & Hpt).
    exists σ'. split; [|split; [|split]].
    + cbn [foldl]. rewrite <- Hrun. cbn [lift]. unfold model_call.
      unfold mbind at 1, M_bind at 1. cbn [lift].
      unfold mbind at 1, M_bind at 1.
      unfold mbind at 1, M_bind at 1. cbn [modify lift].
      rewrite Hp.
      unfold mbind at 1, M_bind at 1. cbn [lift]. by rewrite Hb.
    + by rewrite Hf.
    + rewrite Hc. simpl. rewrite Hc1, Hd. simpl. by rewrite <- app_assoc.
    + by rewrite Hpt.
Qed.

End predictor.

Section predictor.
Context (env : Env) `{Torch.Sort}.

Lemma getitem_Ok {A} (xs : list A) i :
  i < length xs → ∃ x, getitem xs i = Ok x ∧ xs !! i = Some x.
Proof.
  intros Hi. destruct (lookup_lt_is_Some_2 xs i Hi) as [x Hx].
  exists x. unfold getitem. by rewrite Hx.
Qed.

(** A collated batch of non-empty sentences is scored and converted
    without error, into one entry per sentence in each column; with room
    for a candidate and at least one class on either head, every entry
    has a candidate. *)
Lemma batch_out_collated self pad_idxs exs :
  exs ≠ [] → Forall (λ e, ex_tensor e ≠ []) exs → 2 < length (vocabs self) →
  ∃ r, batch_out self (TextSequenceBatchCollator pad_idxs exs) = Ok r ∧
    column_lengths r (length exs) ∧
    ((0 < topk self)%Z →
     0 < Jlu.clf_num_labels (Jlu.slot_classifier (model self)) →
     0 < Jlu.clf_num_labels (Jlu.intent_classifier (model self)) →
     has_candidates r).
Proof.
  intros Hne Hexs Hv.
  destruct (collate_spec pad_idxs exs Hne Hexs)
    as (x & lens & Ht & _ & Hx & Hl & Hz & Hsize).
  destruct (predict_slots (model self) x lens (topk self) Hz)
    as (sc & sp & ic & ip & Hp & Hsc & Hsp & Hslots); [congruence|].
  destruct (predict_intents (model self) x lens (topk self) Hz)
    as (sc' & sp' & ic' & ip' & Hp' & Hic & Hip & Hintents); [congruence|].
  rewrite Hp in Hp'. injection Hp' as <- <- <- <-.
  destruct (getitem_Ok (vocabs self) 1) as (lv & Hlv & _); [lia|].
  destruct (getitem_Ok (vocabs self) 2) as (iv & Hiv & _); [lia|].
  eexists. split.
  { unfold batch_out, select_data, getitem. rewrite Ht. simpl.
    rewrite Hp. simpl. unfold batch_results. rewrite Hlv, Hiv. simpl. done. }
  split.
  { unfold column_lengths. simpl.
    rewrite length_zip_with, length_fmap. lia. }
  intros Hk Hns Hni. unfold has_candidates. simpl.
  assert (∀ i, i < length x →
            ∃ rows len, Torch.log_softmax (Jlu.forward (model self) x None lens).1 !! i
                        = Some rows ∧ lens !! i = Some len ∧ 0 < len) as Hrows.
  { intros i Hi.
    destruct (lookup_lt_is_Some_2 lens i) as [len Hlen]; [lia|].
    destruct (lookup_lt_is_Some_2
                (Torch.log_softmax (Jlu.forward (model self) x None lens).1) i)
      as [rows Hr]; [by rewrite length_log_softmax, length_forward_lgts|].
    exists rows, len. split; [done|]. split; [done|].
    destruct len; [|lia]. by apply list_elem_of_lookup_2 in Hlen. }
  assert (∀ i rows len,
            Torch.log_softmax (Jlu.forward (model self) x None lens).1 !! i = Some rows →
            lens !! i = Some len → 0 < len →
            Utils.decode_example (Z.to_nat (topk self)) rows len ≠ []) as Hbeam.
  { intros i rows len Hr Hlen Hpos.
    destruct (Hslots i rows len Hr Hlen) as (Hlr & Hcols & _).
    rewrite max_len_size1 in Hlr.
    apply decode_example_nonempty; [lia|done| |].
    - destruct rows; [simpl in Hlr; lia|done].
    - eapply Forall_impl; [exact Hcols|]. simpl. intros row Hrow.
      destruct row; [simpl in Hrow; lia|done]. }
  assert (∀ i ids, ic !! i = Some ids → ids ≠ []) as Hids.
  { intros i ids Hi.
    destruct (lookup_lt_is_Some_2 (Jlu.forward (model self) x None lens).2 i)
      as [scores Hs];
      [rewrite length_forward_igts, <- Hic; by eapply lookup_lt_Some|].
    destruct (Hintents i scores Hs) as (Hls & Hici & _).
    rewrite Hici in Hi. injection Hi as <-.
    rewrite slice_to_take by lia. intros Hnil. apply (f_equal length) in Hnil.
    rewrite length_take, length_argsort_desc, length_softmax_row, Hls in Hnil.
    simpl in Hnil. lia. }
  split; [|split; [|split]]; apply Forall_lookup; intros i c Hc.
  - apply lookup_zip_with_Some in Hc as (cands & len & -> & Hci & Hli).
    destruct (Hrows i) as (rows & len' & Hr & Hli' & Hpos);
      [rewrite <- Hsc; by eapply lookup_lt_Some|].
    assert (len' = len) as -> by congruence.
    destruct (Hslots i rows len Hr Hli) as (_ & _ & Hsci & _).
    rewrite Hsci in Hci. injection Hci as <-.
    rewrite <- list_fmap_compose. intros Hnil%fmap_nil_inv.
    by eapply Hbeam.
  - destruct (Hrows i) as (rows & len & Hr & Hli & Hpos);
      [rewrite <- Hsp; by eapply lookup_lt_Some|].
    destruct (Hslots i rows len Hr Hli) as (_ & _ & _ & Hspi).
    rewrite Hspi in Hc. injection Hc as <-.
    intros Hnil%fmap_nil_inv. by eapply Hbeam.
  - rewrite list_lookup_fmap in Hc.
    destruct (ic !! i) as [ids|] eqn:Hi; [|done]. injection Hc as <-.
    intros Hnil%fmap_nil_inv. by eapply Hids.
  - destruct (lookup_lt_is_Some_2 (Jlu.forward (model self) x None lens).2 i)
      as [scores Hs];
      [rewrite length_forward_igts, <- Hip; by eapply lookup_lt_Some|].
    destruct (Hintents i scores Hs) as (Hls & Hici & Hipi).
    rewrite Hipi in Hc. injection Hc as <-.
    unfold Torch.gather.
    destruct (slice_to_prefix (topk self)
                (Torch.argsort_desc (Torch.softmax_row scores))) as [n Hn].
    rewrite slice_to_take by lia. rewrite <- fmap_take.
    intros Hnil%fmap_nil_inv. eapply Hids; [exact Hici|].
    by rewrite slice_to_take by lia.
Qed.

End predictor.

End PredictorFacts.

(** ** [prepare_model] and [generate] *)

Module GenerateFacts.
Import Py PyFacts MFacts SaveFacts LoaderFacts Predict PredictSpec PredictorFacts.

Lemma Forall_Forall2_exists {A B} (P : A → B → Prop) (l : list A) :
  Forall (λ x, ∃ y, P x y) l → ∃ k, Forall2 P l k.
Proof.
  induction 1 as [|x l [y Hy] _ [k Hk]]; [by exists []|].
  exists (y :: k). by constructor.
Qed.

Section run.
Context (env : Env) `{Torch.Sort}.

(** The files [save] leaves behind when its four paths differ. *)
Lemma save_files args labels intents pl pi σ :
  NoDup (paths args) →
  ∃ σ', save env args labels intents pl pi σ = (Ok (), σ') ∧
    files σ' !! path_join (save_dir args) (label_filename args)
      = Some (unlines ((λ label, join " " (split label)) <$> labels)) ∧
    files σ' !! path_join (save_dir args) (intent_filename args)
      = Some (unlines intents) ∧
    files σ' !! path_join (save_dir args) (label_probs_filename args)
      = Some (unlines (str_float env <$> pl)) ∧
    files σ' !! path_join (save_dir args) (intent_probs_filename args)
      = Some (unlines (str_float env <$> pi)) ∧
    (∀ path, path ∉ paths args → files σ' !! path = files σ !! path) ∧
    calls σ' = calls σ.
Proof.
  intros Hnd.
  destruct (save_spec env args labels intents pl pi σ)
    as (σ' & Hrun & Hfiles & _ & _ & Hcalls).
  exists σ'. split; [done|]. rewrite Hfiles. unfold paths, columns in *. simpl.
  set (p1 := path_join (save_dir args) (label_filename args)) in *.
  set (p2 := path_join (save_dir args) (intent_filename args)) in *.
  set (p3 := path_join (save_dir args) (label_probs_filename args)) in *.
  set (p4 := path_join (save_dir args) (intent_probs_filename args)) in *.
  simpl in Hnd.
  apply NoDup_cons in Hnd as [H1 Hnd]. apply NoDup_cons in Hnd as [H2 Hnd].
  apply NoDup_cons in Hnd as [H3 _].
  rewrite !not_elem_of_cons in H1. rewrite !not_elem_of_cons in H2.
  rewrite !not_elem_of_cons in H3.
  destruct H1 as (? & ? & ? & _), H2 as (? & ? & _), H3 as (? & _).
  repeat split.
  - by rewrite !lookup_insert_ne, lookup_insert_eq by done.
  - by rewrite !lookup_insert_ne, lookup_insert_eq by done.
  - by rewrite lookup_insert_ne, lookup_insert_eq by done.
  - by rewrite lookup_insert_eq.
  - intros path. rewrite !not_elem_of_cons. intros (? & ? & ? & ? & _).
    by rewrite !lookup_insert_ne by done.
  - done.
Qed.

(** A prediction run over a dataset of non-empty sentences: it returns,
    and what it returns is the batches' rows in order. *)
Lemma predict_run self data bs pad_idxs σ :
  (0 < bs)%Z → Forall (λ e, ex_tensor e ≠ []) data → 2 < length (vocabs self) →
  ∃ dl rs σ',
    DataLoader_new data bs (TextSequenceBatchCollator pad_idxs) = Ok dl ∧
    shuffle dl = false ∧
    batches env dl = TextSequenceBatchCollator pad_idxs <$> chunks (Z.to_nat bs) data ∧
    Forall2 (λ chunk r,
               batch_out self (TextSequenceBatchCollator pad_idxs chunk) = Ok r ∧
               column_lengths r (length chunk) ∧
               ((0 < topk self)%Z →
                0 < Jlu.clf_num_labels (Jlu.slot_classifier (model self)) →
                0 < Jlu.clf_num_labels (Jlu.intent_classifier (model self)) →
                has_candidates r))
            (chunks (Z.to_nat bs) data) rs ∧
    predict env self dl σ = (Ok (foldl extend empty_results rs), σ') ∧
    calls σ' = calls σ ++ omap batch_data (batches env dl) ∧
    files σ' = files σ.
Proof.
  intros Hbs Hdata Hv.
  eexists. rewrite DataLoader_new_Ok by done.
  set (dl := {| dataset := data |}).
  assert (batches env dl
          = TextSequenceBatchCollator pad_idxs <$> chunks (Z.to_nat bs) data) as Hb
    by (by apply batches_sequential).
  destruct (Forall_Forall2_exists
              (λ chunk r,
                 batch_out self (TextSequenceBatchCollator pad_idxs chunk) = Ok r ∧
                 column_lengths r (length chunk) ∧
                 ((0 < topk self)%Z →
                  0 < Jlu.clf_num_labels (Jlu.slot_classifier (model self)) →
                  0 < Jlu.clf_num_labels (Jlu.intent_classifier (model self)) →
                  has_candidates r))
              (chunks (Z.to_nat bs) data)) as [rs Hrs].
  { pose proof (chunks_nonempty (Z.to_nat bs) data ltac:(lia)) as Hne.
    pose proof (chunks_fuel_Forall _ (length data) (Z.to_nat bs) data Hdata) as Hall.
    fold (chunks (Z.to_nat bs) data) in Hall.
    rewrite Forall_lookup in Hne, Hall. apply Forall_lookup. intros i chunk Hi.
    destruct (Hne _ _ Hi) as [Hc _].
    apply batch_out_collated; [done| |done]. by eapply Hall. }
  destruct (inference_loop_Ok self (batches env dl) rs empty_results
              (set_progress (length data) 0 σ)) as (σ' & Hrun & Hf & Hc & _).
  { rewrite Hb. apply Forall2_fmap_l. eapply Forall2_impl; [exact Hrs|].
    simpl. by intros chunk r (? & _). }
  exists rs, σ'. split; [done|]. split; [done|]. split; [done|]. split; [done|].
  split; [|done].
  exact (bind_Ok (inference_loop self (batches env dl) empty_results)
           (λ res, mret () ≫= λ _, mret res) _ _ _ Hrun).
Qed.

End run.

Section generate.
Context (env : Env) `{Torch.Sort}.

Lemma prepare_model_cases args vocabs :
  (∃ e, prepare_model env args vocabs = Err e ∧
        (e = IndexError ∨ e = KeyError ∨ e = RuntimeError ∨
         e = UnboundLocalError)) ∨
  (∃ v0 v1 v2 sd,
      vocabs !! 0 = Some v0 ∧ vocabs !! 1 = Some v1 ∧ vocabs !! 2 = Some v2 ∧
      torch_load env (ckpt_path args) !! "model"%string = Some sd ∧
      strict_match env (fresh_model env args v0 v1 v2) sd = true ∧
      expand_vocab args = false ∧
      prepare_model env args vocabs = Ok (loaded_model env args v0 v1 v2 sd, v0)).
Proof.
  unfold prepare_model, getitem, loaded_model, load_state_dict.
  destruct (vocabs !! 0) as [v0|]; [|left; eauto]. simpl.
  destruct (vocabs !! 1) as [v1|]; [|left; eauto]. simpl.
  destruct (vocabs !! 2) as [v2|]; [|left; eauto]. simpl.
  destruct (torch_load env (ckpt_path args) !! "model"%string) as [sd|];
    [|left; eauto]. simpl.
  fold (fresh_model env args v0 v1 v2).
  destruct (strict_match env (fresh_model env args v0 v1 v2) sd) eqn:Hs;
    [|left; eauto 6]. simpl.
  destruct (expand_vocab args); [left; eauto 6|]. simpl.
  right. by exists v0, v1, v2, sd.
Qed.

(** With expansion requested, [prepare_model] reaches its [return] with
    [vocab] unbound. *)
Lemma prepare_model_expand args vocabs v0 v1 v2 sd :
  vocabs !! 0 = Some v0 → vocabs !! 1 = Some v1 → vocabs !! 2 = Some v2 →
  torch_load env (ckpt_path args) !! "model"%string = Some sd →
  strict_match env (fresh_model env args v0 v1 v2) sd = true →
  expand_vocab args = true →
  prepare_model env args vocabs = Err UnboundLocalError.
Proof.
  intros H0' H1' H2' Hsd Hs He. unfold prepare_model, getitem, load_state_dict.
  rewrite H0', H1', H2'. simpl. rewrite Hsd. simpl.
  fold (fresh_model env args v0 v1 v2). rewrite Hs. simpl. by rewrite He.
Qed.

Lemma generate_prepare_Err args e σ :
  prepare_model env args (run_vocabs env args) = Err e →
  ∃ e', generate env args σ = (Err e', σ).
Proof.
  intros He. unfold generate. fold (run_vocabs env args).
  change (getitem (run_vocabs env args) 0) with (Ok (load_pkl env (word_vocab args))).
  rewrite (bind_lift_Ok _ _ _ (load_pkl env (word_vocab args)) eq_refl).
  destruct (DataLoader_new _ _ _) as [dl|e1] eqn:Hdl.
  - rewrite (bind_lift_Ok _ _ _ _ eq_refl).
    rewrite (bind_lift_Err _ _ _ _ He). eauto.
  - rewrite (bind_lift_Err _ _ _ _ eq_refl). eauto.
Qed.

Lemma generate_prepare_Err_exact args e σ :
  (0 < batch_size args)%Z →
  prepare_model env args (run_vocabs env args) = Err e →
  generate env args σ = (Err e, σ).
Proof.
  intros Hbs He. unfold generate. fold (run_vocabs env args).
  change (getitem (run_vocabs env args) 0) with (Ok (load_pkl env (word_vocab args))).
  rewrite (bind_lift_Ok _ _ _ (load_pkl env (word_vocab args)) eq_refl).
  rewrite (bind_lift_Ok _ _ _ _ (DataLoader_new_Ok _ _ _ Hbs)).
  by rewrite (bind_lift_Err _ _ _ _ He).
Qed.

Lemma generate_unfold args dl mdl vocab σ :
  DataLoader_new (run_dataset env args) (batch_size args) (run_collate env args) = Ok dl →
  prepare_model env args (run_vocabs env args) = Ok (mdl, vocab) →
  generate env args σ
  = ('((labels, pl), (intents, pi)) ← predict env (run_predictor env args mdl vocab) dl;
     labels ← lift (firsts labels);
     intents ← lift (firsts intents);
     pl ← lift (firsts pl);
     pi ← lift (firsts pi);
     report_stats args labels intents pl pi ;;
     save env args labels intents pl pi) σ.
Proof.
  intros Hdl Hm. unfold generate. fold (run_vocabs env args).
  change (getitem (run_vocabs env args) 0) with (Ok (load_pkl env (word_vocab args))).
  rewrite (bind_lift_Ok _ _ _ (load_pkl env (word_vocab args)) eq_refl).
  fold (run_dataset env args). fold (run_collate env args).
  rewrite (bind_lift_Ok _ _ _ _ Hdl).
  rewrite (bind_lift_Ok _ _ _ _ Hm). done.
Qed.

End generate.

End GenerateFacts.

(** ** A small run *)

Module ToyRun.
Import Predict PredictSpec.

Definition mk_vocab (ws : list string) : Vocabulary :=
  {| f2i := list_to_map (zip ws (seq 0 (length ws)));
     i2f := list_to_map (zip (seq 0 (length ws)) ws) |}.

(** A word vocabulary that lacks the unknown marker. *)
Definition words : Vocabulary := mk_vocab ["<bos>"; "<eos>"; "hello"; "world"; "bye"].
Definition labels : Vocabulary := mk_vocab ["O"; "B-loc"; "I-loc"].
Definition intents : Vocabulary := mk_vocab ["greet"].

(** Five sentences, each between the begin and end markers. *)
Definition sentences : list Example :=
  [ {| ex_string := "hello world"; ex_tensor := [0; 2; 3; 1] |};
    {| ex_string := "bye"; ex_tensor := [0; 4; 1] |};
    {| ex_string := "hello"; ex_tensor := [0; 2; 1] |};
    {| ex_string := "world bye"; ex_tensor := [0; 3; 4; 1] |};
    {| ex_string := "bye bye"; ex_tensor := [0; 4; 4; 1] |} ].

Definition env : Env :=
  {| load_pkl := λ path,
       if decide (path = "word.pkl") then words
       else if decide (path = "label.pkl") then labels
       else intents;
     TextSequenceDataset := λ _ _ _ _ _, sentences;
     create_model_cls := λ _, ToyModel.cls;
     initial_parameters := ∅;
     random_parameters := λ _, ∅;
     torch_load := λ _, {[ "model" := ∅ ]};
     strict_match := λ _ sd, bool_decide (sd = ∅);
     randperm := λ n, seq 0 n;
     str_float := λ _, "0.5" |}.

Definition args : Args :=
  {| show_progress := false;
     word_path := "test.txt";
     word_vocab := "word.pkl";
     label_vocab := "label.pkl";
     intent_vocab := "intent.pkl";
     data_workers := 8;
     seed := None;
     unk := "<unk>";
     eos := "<eos>";
     bos := "<bos>";
     ckpt_path := "model.ckpt";
     batch_size := 3;
     save_dir := "out";
     top_k := 2;
     label_filename := "label.txt";
     label_probs_filename := "label-probs.txt";
     intent_filename := "intent.txt";
     intent_probs_filename := "intent-probs.txt";
     beam_size := 6;
     expand_vocab := false;
     gpu := [];
     model_path := "model.yml";
     hidden_dim := 1;
     word_dim := 1 |}.

(** The same command line with [--expand-vocab]. *)
Definition args_expand : Args :=
  {| show_progress := false;
     word_path := "test.txt";
     word_vocab := "word.pkl";
     label_vocab := "label.pkl";
     intent_vocab := "intent.pkl";
     data_workers := 8;
     seed := None;
     unk := "<unk>";
     eos := "<eos>";
     bos := "<bos>";
     ckpt_path := "model.ckpt";
     batch_size := 3;
     save_dir := "out";
     top_k := 2;
     label_filename := "label.txt";
     label_probs_filename := "label-probs.txt";
     intent_filename := "intent.txt";
     intent_probs_filename := "intent-probs.txt";
     beam_size := 6;
     expand_vocab := true;
     gpu := [];
     model_path := "model.yml";
     hidden_dim := 1;
     word_dim := 1 |}.

Definition world : World :=
  {| files := ∅; progress_total := 0; progress_n := 0; calls := [] |}.

Definition predictor : PredictorWithProgress :=
  {| model := ToyModel.model;
     vocabs := [words; labels; intents];
     progress := false;
     p_bos := "<bos>";
     p_eos := "<eos>";
     p_unk := "<unk>";
     topk := 2 |}.

Lemma sentences_nonempty : Forall (λ e, ex_tensor e ≠ []) sentences.
Proof. unfold sentences. repeat constructor; done. Qed.

Lemma paths_NoDup : NoDup (PredictSpec.paths args).
Proof.
  unfold PredictSpec.paths. apply (bool_decide_unpack _). vm_compute. exact I.
Qed.

Lemma checkpoint_model : torch_load env (ckpt_path args) !! "model"%string = Some ∅.
Proof. simpl. apply lookup_singleton_eq. Qed.

(** The small model has no parameters: the empty state dict is the one
    that matches it. *)
Lemma checkpoint_matches mdl : strict_match env mdl ∅ = true.
Proof. simpl. by apply bool_decide_eq_true_2. Qed.

Lemma words_no_unk : f2i words !! "<unk>"%string = None.
Proof. vm_compute. reflexivity. Qed.

End ToyRun.

(** ** Claims about [predict.py] *)

Module PredictClaims.
Import Py PyFacts MFacts SaveFacts LoaderFacts Predict PredictSpec PredictorFacts
       GenerateFacts.

Section claims.
Context (env : Env) `{Torch.Sort}.

(** C1, as amended.  [prepare_model] never raises
    [VocabularyExpansionError] and never replaces the embedding table:
    whenever it returns, the vocabulary returned is [vocabs[0]] itself,
    the model's embedding is the one built for [len(vocabs[0])] words of
    dimension [word_dim], and its parameters are the checkpoint's.  It
    runs before any batch is scored: when it fails, [generate] fails with
    the world as it found it, no batch scored and no file written. *)
Theorem prepare_model_never_expands args vocabs :
  prepare_model env args vocabs ≠ Err VocabularyExpansionError ∧
  (∀ mdl vocab, prepare_model env args vocabs = Ok (mdl, vocab) →
     vocabs !! 0 = Some vocab ∧
     Jlu.embeds mdl
     = {| Jlu.emb_cls := Jlu.embedding (create_model_cls env (model_path args));
          Jlu.emb_vocab_size := len vocab;
          Jlu.emb_dim := word_dim args |} ∧
     torch_load env (ckpt_path args) !! "model"%string = Some (Jlu.state_dict mdl)) ∧
  (∀ e σ, prepare_model env args (run_vocabs env args) = Err e →
     ∃ e', generate env args σ = (Err e', σ)).
Proof.
  split; [|split].
  - destruct (prepare_model_cases env args vocabs)
      as [(e & He & Hcases)|(v0 & v1 & v2 & sd & _ & _ & _ & _ & _ & _ & Hok)].
    + rewrite He. by destruct Hcases as [Hc|[Hc|[Hc|Hc]]]; rewrite Hc.
    + by rewrite Hok.
  - intros mdl vocab Hm.
    destruct (prepare_model_cases env args vocabs)
      as [(e & He & _)|(v0 & v1 & v2 & sd & H0' & _ & _ & Hsd & _ & _ & Hok)];
      [congruence|].
    rewrite Hok in Hm. injection Hm as <- <-. done.
  - intros e σ He. by eapply generate_prepare_Err.
Qed.

(** C7.  With four distinct paths and four columns of [n] entries whose
    intents and probability strings hold no line break, [save] succeeds
    and leaves exactly four files changed, each the text of its column
    written one entry per newline-terminated line: read back line by
    line, each file has [n] lines, and line [i] of the four files is the
    normalised label sequence, the intent and the two probabilities of
    entry [i]. *)
Theorem save_four_parallel_files args labels intents pl pi σ n :
  NoDup (paths args) →
  length labels = n → length intents = n → length pl = n → length pi = n →
  Forall one_line intents → (∀ x, one_line (str_float env x)) →
  ∃ σ' t1 t2 t3 t4,
    save env args labels intents pl pi σ = (Ok (), σ') ∧
    files σ' !! path_join (save_dir args) (label_filename args) = Some t1 ∧
    files σ' !! path_join (save_dir args) (intent_filename args) = Some t2 ∧
    files σ' !! path_join (save_dir args) (label_probs_filename args) = Some t3 ∧
    files σ' !! path_join (save_dir args) (intent_probs_filename args) = Some t4 ∧
    (∀ path, path ∉ paths args → files σ' !! path = files σ !! path) ∧
    t1 = unlines ((λ label, join " " (split label)) <$> labels) ∧
    t2 = unlines intents ∧
    t3 = unlines (str_float env <$> pl) ∧
    t4 = unlines (str_float env <$> pi) ∧
    length (lines t1) = n ∧ length (lines t2) = n ∧
    length (lines t3) = n ∧ length (lines t4) = n ∧
    ∀ i label intent p q,
      labels !! i = Some label → intents !! i = Some intent →
      pl !! i = Some p → pi !! i = Some q →
      lines t1 !! i = Some (join " " (split label)) ∧
      lines t2 !! i = Some intent ∧
      lines t3 !! i = Some (str_float env p) ∧
      lines t4 !! i = Some (str_float env q).
Proof.
  intros Hnd Hl1 Hl2 Hl3 Hl4 Hint Hstr.
  destruct (save_files env args labels intents pl pi σ Hnd)
    as (σ' & Hrun & H1 & H2 & H3 & H4 & Hother & _).
  eexists σ', _, _, _, _. do 5 (split; [done|]). split; [done|].
  do 4 (split; [done|]).
  assert (lines (unlines ((λ label, join " " (split label)) <$> labels))
          = (λ label, join " " (split label)) <$> labels) as ->.
  { apply lines_unlines, Forall_fmap, Forall_true. intros label.
    apply normalised_one_line. }
  assert (lines (unlines intents) = intents) as -> by by apply lines_unlines.
  assert (lines (unlines (str_float env <$> pl)) = str_float env <$> pl) as ->
    by by apply lines_unlines, Forall_fmap, Forall_true.
  assert (lines (unlines (str_float env <$> pi)) = str_float env <$> pi) as ->
    by by apply lines_unlines, Forall_fmap, Forall_true.
  rewrite !length_fmap. do 4 (split; [done|]).
  intros i label intent p q Hi1 Hi2 Hi3 Hi4.
  rewrite !list_lookup_fmap, Hi1, Hi2, Hi3, Hi4. done.
Qed.

(** C8.  A prediction run over a dataset of non-empty sentences, with any
    batch size of at least one: the loader does not shuffle, its batches
    are the consecutive groups of the dataset (which put end to end give
    the dataset back), the model is called on these batches in that
    order, and the collection returned is the batches' rows appended in
    that order, with exactly one entry per sentence in each column. *)
Theorem predict_one_entry_per_example_in_order self data bs pad_idxs σ :
  (0 < bs)%Z → Forall (λ e, ex_tensor e ≠ []) data → 2 < length (vocabs self) →
  ∃ dl rs σ',
    DataLoader_new data bs (TextSequenceBatchCollator pad_idxs) = Ok dl ∧
    shuffle dl = false ∧
    batches env dl = TextSequenceBatchCollator pad_idxs <$> chunks (Z.to_nat bs) data ∧
    concat (chunks (Z.to_nat bs) data) = data ∧
    Forall2 (λ chunk r,
               batch_out self (TextSequenceBatchCollator pad_idxs chunk) = Ok r ∧
               column_lengths r (length chunk))
            (chunks (Z.to_nat bs) data) rs ∧
    predict env self dl σ = (Ok (foldl extend empty_results rs), σ') ∧
    foldl extend empty_results rs
    = ((concat ((λ r : Results, r.1.1) <$> rs), concat ((λ r : Results, r.1.2) <$> rs)),
       (concat ((λ r : Results, r.2.1) <$> rs), concat ((λ r : Results, r.2.2) <$> rs))) ∧
    column_lengths (foldl extend empty_results rs) (length data) ∧
    calls σ' = calls σ ++ omap batch_data (batches env dl).
Proof.
  intros Hbs Hdata Hv.
  destruct (predict_run env self data bs pad_idxs σ Hbs Hdata Hv)
    as (dl & rs & σ' & Hdl & Hsh & Hb & Hrs & Hrun & Hcalls & _).
  exists dl, rs, σ'. do 3 (split; [done|]).
  assert (concat (chunks (Z.to_nat bs) data) = data) as Hcat
    by (apply concat_chunks; lia).
  split; [done|].
  assert (Forall2 (λ chunk r,
                     batch_out self (TextSequenceBatchCollator pad_idxs chunk) = Ok r ∧
                     column_lengths r (length chunk))
                  (chunks (Z.to_nat bs) data) rs) as Hrs'.
  { eapply Forall2_impl; [exact Hrs|]. simpl. by intros chunk r (? & ? & _). }
  split; [done|]. split; [done|]. split; [by rewrite foldl_extend_columns|].
  split; [|done].
  replace (length data) with (length (concat (chunks (Z.to_nat bs) data)))
    by (by rewrite Hcat).
  apply foldl_extend_lengths.
  eapply Forall2_impl; [exact Hrs'|]. simpl. by intros chunk r (_ & ?).
Qed.

End claims.

Section claims.
Context (env : Env) `{Torch.Sort}.

Lemma prepare_model_run_Ok args sd :
  expand_vocab args = false →
  torch_load env (ckpt_path args) !! "model"%string = Some sd →
  strict_match env
    (fresh_model env args (load_pkl env (word_vocab args))
       (load_pkl env (label_vocab args)) (load_pkl env (intent_vocab args))) sd
  = true →
  prepare_model env args (run_vocabs env args)
  = Ok (loaded_model env args (load_pkl env (word_vocab args))
          (load_pkl env (label_vocab args)) (load_pkl env (intent_vocab args)) sd,
        load_pkl env (word_vocab args)).
Proof.
  intros He Hsd Hs.
  unfold prepare_model, run_vocabs, getitem, load_state_dict. simpl.
  rewrite Hsd. simpl.
  fold (fresh_model env args (load_pkl env (word_vocab args))
          (load_pkl env (label_vocab args)) (load_pkl env (intent_vocab args))).
  rewrite Hs. simpl. by rewrite He.
Qed.

(** A run of [generate] that is set up to succeed (positive batch size and
    top-k, no expansion, a checkpoint with a model that matches, non-empty
    sentences) reaches the end of prediction with one entry per sentence
    in each column, every entry with at least one candidate. *)
Lemma generate_predicts args sd σ :
  (0 < batch_size args)%Z → (0 < top_k args)%Z → expand_vocab args = false →
  torch_load env (ckpt_path args) !! "model"%string = Some sd →
  strict_match env
    (fresh_model env args (load_pkl env (word_vocab args))
       (load_pkl env (label_vocab args)) (load_pkl env (intent_vocab args))) sd
  = true →
  Forall (λ e, ex_tensor e ≠ []) (run_dataset env args) →
  ∃ dl mdl vocab res σ1,
    DataLoader_new (run_dataset env args) (batch_size args) (run_collate env args)
      = Ok dl ∧
    prepare_model env args (run_vocabs env args) = Ok (mdl, vocab) ∧
    predict env (run_predictor env args mdl vocab) dl σ = (Ok res, σ1) ∧
    column_lengths res (length (run_dataset env args)) ∧
    has_candidates res.
Proof.
  intros Hbs Hk He Hsd Hs Hdata.
  pose proof (prepare_model_run_Ok args sd He Hsd Hs) as Hm.
  set (mdl := loaded_model env args _ _ _ sd) in Hm.
  set (vocab := load_pkl env (word_vocab args)) in Hm.
  destruct (predict_run env (run_predictor env args mdl vocab) (run_dataset env args)
              (batch_size args) (len <$> run_vocabs env args) σ Hbs Hdata)
    as (dl & rs & σ1 & Hdl & _ & _ & Hrs & Hrun & _ & Hf1).
  { simpl. lia. }
  exists dl, mdl, vocab, (foldl extend empty_results rs), σ1.
  do 3 (split; [done|]). split.
  - replace (length (run_dataset env args))
      with (length (concat (chunks (Z.to_nat (batch_size args)) (run_dataset env args))))
      by (rewrite concat_chunks; [done|lia]).
    apply foldl_extend_lengths. eapply Forall2_impl; [exact Hrs|].
    simpl. by intros chunk r (_ & ? & _).
  - apply foldl_extend_candidates.
    eapply Forall2_Forall_r; [exact Hrs|]. apply Forall_true.
    intros chunk r (_ & _ & Hc). apply Hc; simpl; lia.
Qed.

(** C9.  Whatever the predictor returns, with however many candidates per
    example, a run of [generate] writes only the first candidate of each
    example: when every example has at least one candidate and the four
    output paths differ, [generate] succeeds, and the four files are the
    texts of the columns of first label sequences, first intents and first
    probabilities, one line per example; no other file changes after
    prediction. *)
Theorem generate_keeps_first_candidates args dl mdl vocab labels pl intents pi σ σ1 :
  DataLoader_new (run_dataset env args) (batch_size args) (run_collate env args)
    = Ok dl →
  prepare_model env args (run_vocabs env args) = Ok (mdl, vocab) →
  predict env (run_predictor env args mdl vocab) dl σ
    = (Ok ((labels, pl), (intents, pi)), σ1) →
  has_candidates ((labels, pl), (intents, pi)) →
  NoDup (paths args) →
  ∃ l1 i1 p1 q1 σ',
    Forall2 (λ c y, c !! 0 = Some y) labels l1 ∧
    Forall2 (λ c y, c !! 0 = Some y) intents i1 ∧
    Forall2 (λ c y, c !! 0 = Some y) pl p1 ∧
    Forall2 (λ c y, c !! 0 = Some y) pi q1 ∧
    generate env args σ = (Ok (), σ') ∧
    files σ' !! path_join (save_dir args) (label_filename args)
      = Some (unlines ((λ label, join " " (split label)) <$> l1)) ∧
    files σ' !! path_join (save_dir args) (intent_filename args)
      = Some (unlines i1) ∧
    files σ' !! path_join (save_dir args) (label_probs_filename args)
      = Some (unlines (str_float env <$> p1)) ∧
    files σ' !! path_join (save_dir args) (intent_probs_filename args)
      = Some (unlines (str_float env <$> q1)) ∧
    (∀ path, path ∉ paths args → files σ' !! path = files σ1 !! path).
Proof.
  intros Hdl Hm Hrun (Hc1 & Hc2 & Hc3 & Hc4) Hnd. simpl in Hc1, Hc2, Hc3, Hc4.
  destruct (firsts_Ok labels Hc1) as (l1 & Hl1 & Hl1').
  destruct (firsts_Ok intents Hc3) as (i1 & Hi1 & Hi1').
  destruct (firsts_Ok pl Hc2) as (p1 & Hp1 & Hp1').
  destruct (firsts_Ok pi Hc4) as (q1 & Hq1 & Hq1').
  destruct (save_files env args l1 i1 p1 q1 σ1 Hnd)
    as (σ' & Hsave & H1 & H2 & H3 & H4 & Hother & _).
  exists l1, i1, p1, q1, σ'. do 4 (split; [done|]). split; [|done].
  rewrite (generate_unfold env args dl mdl vocab σ Hdl Hm).
  rewrite (bind_Ok _ _ _ _ _ Hrun). cbv beta iota.
  rewrite (bind_lift_Ok _ _ _ _ Hl1), (bind_lift_Ok _ _ _ _ Hi1).
  rewrite (bind_lift_Ok _ _ _ _ Hp1), (bind_lift_Ok _ _ _ _ Hq1).
  exact Hsave.
Qed.

(** With a candidate list that is empty, [generate] fails with [IndexError]
    at the selection of first candidates, and writes no file. *)
Lemma generate_no_candidate args dl mdl vocab labels pl intents pi σ σ1 :
  DataLoader_new (run_dataset env args) (batch_size args) (run_collate env args)
    = Ok dl →
  prepare_model env args (run_vocabs env args) = Ok (mdl, vocab) →
  predict env (run_predictor env args mdl vocab) dl σ
    = (Ok ((labels, pl), (intents, pi)), σ1) →
  [] ∈ labels →
  generate env args σ = (Err IndexError, σ1).
Proof.
  intros Hdl Hm Hrun Hin.
  rewrite (generate_unfold env args dl mdl vocab σ Hdl Hm).
  rewrite (bind_Ok _ _ _ _ _ Hrun). cbv beta iota.
  apply bind_lift_Err. by apply firsts_Err.
Qed.

End claims.

#[local] Existing Instance SortsFacts.stable.

(** C1, refuted.  With [--expand-vocab] and a word vocabulary that lacks
    the unknown marker, the run fails before any batch is scored, but with
    [UnboundLocalError], not with [VocabularyExpansionError]. *)
Lemma generate_expand_vocab_unbound :
  expand_vocab ToyRun.args_expand = true ∧
  f2i (load_pkl ToyRun.env (word_vocab ToyRun.args_expand))
    !! unk ToyRun.args_expand = None ∧
  generate ToyRun.env ToyRun.args_expand ToyRun.world
    = (Err UnboundLocalError, ToyRun.world) ∧
  (generate ToyRun.env ToyRun.args_expand ToyRun.world).1
    ≠ Err VocabularyExpansionError.
Proof.
  assert (generate ToyRun.env ToyRun.args_expand ToyRun.world
          = (Err UnboundLocalError, ToyRun.world)) as Hgen.
  { apply generate_prepare_Err_exact; [done|].
    eapply prepare_model_expand;
      [done..|apply ToyRun.checkpoint_model|apply ToyRun.checkpoint_matches|done]. }
  split; [done|]. split; [apply ToyRun.words_no_unk|]. split; [done|].
  by rewrite Hgen.
Qed.

Lemma str_float_one_line x : one_line (str_float ToyRun.env x).
Proof. reflexivity. Qed.

Lemma intents_one_line : Forall one_line ["greet"; "greet"]%string.
Proof. by repeat constructor. Qed.

Lemma save_four_parallel_files_witness :
  NoDup (paths ToyRun.args) ∧
  Forall one_line ["greet"; "greet"]%string ∧
  (∀ x, one_line (str_float ToyRun.env x)) ∧
  ∃ σ' t1 t2 t3 t4,
    save ToyRun.env ToyRun.args ["O  B-loc"; "O"] ["greet"; "greet"]
      [0.5; 0.25]%R [1; 1]%R ToyRun.world = (Ok (), σ') ∧
    files σ' !! "out/label.txt"%string = Some t1 ∧
    files σ' !! "out/intent.txt"%string = Some t2 ∧
    files σ' !! "out/label-probs.txt"%string = Some t3 ∧
    files σ' !! "out/intent-probs.txt"%string = Some t4 ∧
    (∀ path, path ∉ paths ToyRun.args →
       files σ' !! path = files ToyRun.world !! path) ∧
    t1 = unlines ((λ label, join " " (split label)) <$> ["O  B-loc"; "O"]) ∧
    t2 = unlines ["greet"; "greet"] ∧
    t3 = unlines (str_float ToyRun.env <$> [0.5; 0.25]%R) ∧
    t4 = unlines (str_float ToyRun.env <$> [1; 1]%R) ∧
    length (lines t1) = 2 ∧ length (lines t2) = 2 ∧
    length (lines t3) = 2 ∧ length (lines t4) = 2 ∧
    ∀ i label intent p q,
      ["O  B-loc"; "O"] !! i = Some label → ["greet"; "greet"] !! i = Some intent →
      [0.5; 0.25]%R !! i = Some p → [1; 1]%R !! i = Some q →
      lines t1 !! i = Some (join " " (split label)) ∧
      lines t2 !! i = Some intent ∧
      lines t3 !! i = Some (str_float ToyRun.env p) ∧
      lines t4 !! i = Some (str_float ToyRun.env q).
Proof.
  split; [apply ToyRun.paths_NoDup|]. split; [apply intents_one_line|].
  split; [apply str_float_one_line|].
  apply (save_four_parallel_files ToyRun.env ToyRun.args
           ["O  B-loc"; "O"] ["greet"; "greet"] [0.5; 0.25]%R [1; 1]%R
           ToyRun.world 2 ToyRun.paths_NoDup eq_refl eq_refl eq_refl eq_refl
           intents_one_line str_float_one_line).
Defined.

Lemma predictor_vocabs : 2 < length (vocabs ToyRun.predictor).
Proof. simpl. lia. Qed.

Lemma predict_one_entry_per_example_in_order_witness :
  (0 < 3)%Z ∧ Forall (λ e, ex_tensor e ≠ []) ToyRun.sentences ∧
  2 < length (vocabs ToyRun.predictor) ∧
  ∃ dl rs σ',
    DataLoader_new ToyRun.sentences 3 (TextSequenceBatchCollator [5; 3; 1]) = Ok dl ∧
    shuffle dl = false ∧
    batches ToyRun.env dl
    = TextSequenceBatchCollator [5; 3; 1] <$> chunks (Z.to_nat 3) ToyRun.sentences ∧
    concat (chunks (Z.to_nat 3) ToyRun.sentences) = ToyRun.sentences ∧
    Forall2 (λ chunk r,
               batch_out ToyRun.predictor (TextSequenceBatchCollator [5; 3; 1] chunk)
               = Ok r ∧
               column_lengths r (length chunk))
            (chunks (Z.to_nat 3) ToyRun.sentences) rs ∧
    predict ToyRun.env ToyRun.predictor dl ToyRun.world
    = (Ok (foldl extend empty_results rs), σ') ∧
    foldl extend empty_results rs
    = ((concat ((λ r : Results, r.1.1) <$> rs), concat ((λ r : Results, r.1.2) <$> rs)),
       (concat ((λ r : Results, r.2.1) <$> rs), concat ((λ r : Results, r.2.2) <$> rs))) ∧
    column_lengths (foldl extend empty_results rs) (length ToyRun.sentences) ∧
    calls σ' = calls ToyRun.world ++ omap batch_data (batches ToyRun.env dl).
Proof.
  split; [lia|]. split; [apply ToyRun.sentences_nonempty|].
  split; [apply predictor_vocabs|].
  apply (predict_one_entry_per_example_in_order ToyRun.env ToyRun.predictor
           ToyRun.sentences 3 [5; 3; 1] ToyRun.world);
    [lia|apply ToyRun.sentences_nonempty|apply predictor_vocabs].
Defined.

Lemma generate_keeps_first_candidates_witness :
  ∃ dl mdl vocab labels pl intents pi σ1,
    DataLoader_new (run_dataset ToyRun.env ToyRun.args) (batch_size ToyRun.args)
      (run_collate ToyRun.env ToyRun.args) = Ok dl ∧
    prepare_model ToyRun.env ToyRun.args (run_vocabs ToyRun.env ToyRun.args)
      = Ok (mdl, vocab) ∧
    predict ToyRun.env (run_predictor ToyRun.env ToyRun.args mdl vocab) dl ToyRun.world
      = (Ok ((labels, pl), (intents, pi)), σ1) ∧
    has_candidates ((labels, pl), (intents, pi)) ∧
    NoDup (paths ToyRun.args) ∧
    ∃ l1 i1 p1 q1 σ',
      Forall2 (λ c y, c !! 0 = Some y) labels l1 ∧
      Forall2 (λ c y, c !! 0 = Some y) intents i1 ∧
      Forall2 (λ c y, c !! 0 = Some y) pl p1 ∧
      Forall2 (λ c y, c !! 0 = Some y) pi q1 ∧
      generate ToyRun.env ToyRun.args ToyRun.world = (Ok (), σ') ∧
      files σ' !! path_join (save_dir ToyRun.args) (label_filename ToyRun.args)
        = Some (unlines ((λ label, join " " (split label)) <$> l1)) ∧
      files σ' !! path_join (save_dir ToyRun.args) (intent_filename ToyRun.args)
        = Some (unlines i1) ∧
      files σ' !! path_join (save_dir ToyRun.args) (label_probs_filename ToyRun.args)
        = Some (unlines (str_float ToyRun.env <$> p1)) ∧
      files σ' !! path_join (save_dir ToyRun.args) (intent_probs_filename ToyRun.args)
        = Some (unlines (str_float ToyRun.env <$> q1)) ∧
      (∀ path, path ∉ paths ToyRun.args → files σ' !! path = files σ1 !! path).
Proof.
  destruct (generate_predicts ToyRun.env ToyRun.args ∅ ToyRun.world)
    as (dl & mdl & vocab & [[labels pl] [intents pi]] & σ1 & Hdl & Hm & Hrun & _ & Hc);
    [reflexivity|reflexivity|reflexivity|apply ToyRun.checkpoint_model
    |apply ToyRun.checkpoint_matches|apply ToyRun.sentences_nonempty|].
  exists dl, mdl, vocab, labels, pl, intents, pi, σ1.
  split; [exact Hdl|]. split; [exact Hm|]. split; [exact Hrun|].
  split; [exact Hc|]. split; [apply ToyRun.paths_NoDup|].
  apply (generate_keeps_first_candidates ToyRun.env ToyRun.args dl mdl vocab
           labels pl intents pi ToyRun.world σ1 Hdl Hm Hrun Hc ToyRun.paths_NoDup).
Defined.

End PredictClaims.
(** ** More on the tensor operations *)

Module TorchMore.
Import Torch TorchFacts.

Lemma sum_list_exp_pos (xs : list R) :
  xs ≠ [] → (0 < sum_list (Rtrigo_def.exp <$> xs))%R.
Proof.
  destruct xs as [|x xs]; [done|]. intros _. unfold sum_list. csimpl.
  assert (0 <= foldr Rplus 0 (Rtrigo_def.exp <$> xs))%R as Hrest.
  { induction xs as [|y xs IH]; csimpl; [lra|].
    pose proof (exp_pos y). lra. }
  pose proof (exp_pos x). lra.
Qed.

Lemma sum_list_fmap_div (xs : list R) (d : R) :
  sum_list ((λ x, x / d)%R <$> xs) = (sum_list xs / d)%R.
Proof.
  unfold sum_list. induction xs as [|x xs IH]; csimpl; [lra|]. rewrite IH. lra.
Qed.

(** The entries of a softmax row are positive and add up to one. *)
Lemma softmax_row_pos xs p : p ∈ softmax_row xs → (0 < p)%R.
Proof.
  unfold softmax_row. intros (x & -> & Hx)%list_elem_of_fmap.
  apply Rdiv_lt_0_compat; [apply exp_pos|].
  apply sum_list_exp_pos. by intros ->; apply elem_of_nil in Hx.
Qed.

Lemma sum_softmax_row xs : xs ≠ [] → sum_list (softmax_row xs) = 1%R.
Proof.
  intros Hne. unfold softmax_row.
  change (sum_list (((λ y, y / sum_list (Rtrigo_def.exp <$> xs))%R
                       ∘ Rtrigo_def.exp) <$> xs) = 1%R).
  rewrite list_fmap_compose, sum_list_fmap_div.
  pose proof (sum_list_exp_pos xs Hne). field. lra.
Qed.

Lemma sum_list_perm xs ys : xs ≡ₚ ys → sum_list xs = sum_list ys.
Proof.
  unfold sum_list.
  induction 1 as [|x xs ys _ IH|x y xs|xs ys zs _ IH1 _ IH2]; simpl;
    [done|rewrite IH; lra|lra|congruence].
Qed.

Lemma sum_list_nonneg xs : Forall (λ x, 0 <= x)%R xs → (0 <= sum_list xs)%R.
Proof. unfold sum_list. induction 1 as [|x xs Hx _ IH]; simpl; lra. Qed.

Lemma sum_list_take_le n xs :
  Forall (λ x, 0 <= x)%R xs → (sum_list (take n xs) <= sum_list xs)%R.
Proof.
  intros Hxs. rewrite <- (take_drop n xs) at 2.
  rewrite UtilsFacts.sum_list_app.
  pose proof (sum_list_nonneg (drop n xs) (Forall_drop _ n _ Hxs)). lra.
Qed.

Lemma sum_list_elem_le xs x :
  Forall (λ x, 0 <= x)%R xs → x ∈ xs → (x <= sum_list xs)%R.
Proof.
  intros Hxs Hx. apply list_elem_of_split in Hx as (l1 & l2 & ->).
  rewrite UtilsFacts.sum_list_app. unfold sum_list at 2. simpl.
  fold (sum_list l2).
  apply Forall_app in Hxs as [H1 H2]. apply Forall_cons in H2 as [_ H2].
  pose proof (sum_list_nonneg _ H1). pose proof (sum_list_nonneg _ H2). lra.
Qed.

Lemma gather_seq xs : gather xs (seq 0 (length xs)) = xs.
Proof.
  unfold gather. apply list_eq. intros i. rewrite list_lookup_fmap.
  destruct (decide (i < length xs)) as [Hi|Hi].
  - rewrite lookup_seq_lt by done. simpl.
    destruct (lookup_lt_is_Some_2 xs i Hi) as [x Hx]. rewrite Hx. f_equal.
    by apply nth_lookup_Some with (d := 0%R) in Hx.
  - rewrite lookup_seq_ge by lia. simpl. symmetry. apply lookup_ge_None. lia.
Qed.

Lemma gather_perm xs idx :
  idx ≡ₚ seq 0 (length xs) → gather xs idx ≡ₚ xs.
Proof.
  intros Hp. rewrite <- (gather_seq xs) at 2. unfold gather. by apply fmap_Permutation.
Qed.


(** Putting the rows of a rectangular tensor end to end and cutting them
    into groups again gives the tensor back. *)
Lemma view_3d_view_2d {A} (t : list (list (list A))) l :
  Forall (λ rows, length rows = l) t → view_3d (length t) l (view_2d t) = t.
Proof.
  unfold view_3d, view_2d. induction 1 as [|rows t Hrows _ IH]; [done|].
  simpl length. rewrite <- cons_seq. simpl.
  rewrite drop_0, take_app_length' by done. f_equal.
  rewrite <- fmap_S_seq, <- list_fmap_compose. rewrite <- IH at 2.
  apply list_fmap_ext. intros _ i _. simpl.
  replace (l + i * l) with (length rows + i * l) by lia.
  by rewrite drop_app_add'.
Qed.

Lemma fmap_view_2d {A B} (f : list A → list B) (t : list (list (list A))) :
  f <$> view_2d t = view_2d ((λ rows : list (list A), f <$> rows) <$> t).
Proof.
  unfold view_2d. induction t as [|r t IH]; csimpl; [done|].
  by rewrite fmap_app, IH.
Qed.

Lemma length_slice_to_any {A} (k : Z) (row : list A) :
  length (slice_to k row)
  = if (0 <=? k)%Z then Z.to_nat k `min` length row
    else length row - Z.to_nat (- k).
Proof.
  unfold slice_to. destruct (0 <=? k)%Z; rewrite length_take; lia.
Qed.

End TorchMore.

(** ** More on [predict] *)

Module JluMore.
Import Torch TorchFacts TorchMore Jlu JluSpec UtilsFacts JluFacts.

(** What [predict] returned for the intents, read off a successful call. *)
Lemma predict_Ok_intents `{Sort} self w lens topk sc sp ic ip :
  predict self w lens topk = Ok ((sc, sp), (ic, ip)) →
  (∃ lp, sp = Torch.exp lp) ∧
  ∀ i scores, (forward self w None lens).2 !! i = Some scores →
    ic !! i = Some (slice_to topk (argsort_desc (softmax_row scores))) ∧
    ip !! i = Some (slice_to topk (gather (softmax_row scores)
                                     (argsort_desc (softmax_row scores)))).
Proof.
  rewrite predict_unfold. generalize (forward self w None lens).2. intros igts.
  destruct (Utils.decode (decoder_of self w lens topk)) as [[sc' lp]|e]; [|done].
  intros [= <- <- <- <-]. split; [by eexists|].
  intros i scores Hi. unfold sort, softmax. cbn [fst snd].
  by rewrite !list_lookup_fmap, Hi.
Qed.

Lemma predict_Ok_intents_inv `{Sort} self w lens topk sc sp ic ip :
  predict self w lens topk = Ok ((sc, sp), (ic, ip)) →
  ∀ i, (∀ ids, ic !! i = Some ids →
          ∃ scores, (forward self w None lens).2 !! i = Some scores) ∧
       (∀ ps, ip !! i = Some ps →
          ∃ scores, (forward self w None lens).2 !! i = Some scores).
Proof.
  rewrite predict_unfold. generalize (forward self w None lens).2. intros igts.
  destruct (Utils.decode (decoder_of self w lens topk)) as [[sc' lp]|e]; [|done].
  intros [= <- <- <- <-] i. unfold sort, softmax. cbn [fst snd].
  rewrite !list_lookup_fmap.
  destruct (igts !! i) as [scores|]; [|done]. eauto.
Qed.

Lemma toy_lens_ok : 0 ∉ Toy.lens.
Proof.
  unfold Toy.lens. rewrite !not_elem_of_cons. split; [done|]. split; [done|].
  apply not_elem_of_nil.
Qed.

End JluMore.

(** ** Further properties of [models/jlu.py] *)

Module JluExtras.
Import Torch TorchFacts TorchMore Jlu JluSpec UtilsFacts JluFacts JluMore.

Section init.
Context (cls : ModelCls) (sd : StateDict) (hd wd nw ns ni : nat).

(** X1.  The shapes of what [forward] returns for a model built by
    [__init__]: label scores [batch x max_len x (num_slots + 1)] and intent
    scores [batch x (num_intents + 1)], where [batch] and [max_len] are the
    dimensions of the token tensor [w]; the intent scores are
    [_forward_intent] of the encoder's hidden states, and the argument [s]
    is not used. *)
Theorem forward_shapes w s lens :
  length (forward (__init__ cls sd hd wd nw ns ni) w s lens).1 = length w ∧
  Forall (λ rows, length rows = size1 w ∧ Forall (λ r, length r = ns + 1) rows)
         (forward (__init__ cls sd hd wd nw ns ni) w s lens).1 ∧
  length (forward (__init__ cls sd hd wd nw ns ni) w s lens).2 = length w ∧
  Forall (λ r, length r = ni + 1)
         (forward (__init__ cls sd hd wd nw ns ni) w s lens).2 ∧
  (forward (__init__ cls sd hd wd nw ns ni) w s lens).2
    = _forward_intent (__init__ cls sd hd wd nw ns ni)
        (call_rnn (__init__ cls sd hd wd nw ns ni)
           (call_embeds (__init__ cls sd hd wd nw ns ni) w) lens) ∧
  forward (__init__ cls sd hd wd nw ns ni) w s lens
    = forward (__init__ cls sd hd wd nw ns ni) w None lens.
Proof.
  set (self := __init__ cls sd hd wd nw ns ni).
  split; [apply length_forward_lgts|]. split.
  { pose proof (forward_lgts_rect self w s lens) as Hrect.
    pose proof (forward_lgts_cols self w s lens) as Hcols.
    apply Forall_lookup. intros i rows Hi.
    rewrite Forall_lookup in Hrect, Hcols. split.
    - rewrite (Hrect _ _ Hi). apply (max_len_size1 self w lens).
    - apply (Hcols _ _ Hi). }
  split; [apply length_forward_igts|]. split; [|done].
  apply (forward_igts_cols self w s lens).
Qed.

End init.

Section forward.
Context (self : RNNBasedJLU).

(** X2.  [_forward_slots] scores every position on its own: if the slot
    classifier maps each row of its input by [f], then on a rectangular
    tensor of hidden states [_forward_slots] maps each hidden state by
    [f], keeping batch and position. *)
Theorem forward_slots_positionwise (f : list R → list R) hs :
  (∀ x, call_classifier self (slot_classifier self) x = f <$> x) →
  Forall (λ rows, length rows = size1 hs) hs →
  _forward_slots self hs = (λ rows : list (list R), f <$> rows) <$> hs.
Proof.
  intros Hf Hrect. unfold _forward_slots. cbn [fst snd]. rewrite Hf.
  rewrite fmap_view_2d.
  rewrite <- (length_fmap (λ rows : list (list R), f <$> rows) hs).
  apply view_3d_view_2d. apply Forall_fmap.
  eapply Forall_impl; [exact Hrect|]. simpl. intros rows <-. apply length_fmap.
Qed.

End forward.

Section predict.
Context `{Sort} (self : RNNBasedJLU).

(** X3.  Whenever [predict] returns: every slot probability is positive;
    every intent probability lies in (0, 1]; the intent probabilities of
    an example add up to at most 1, and to exactly 1 when [topk] is at
    least the number of intent classes. *)
Theorem predict_probabilities w lens topk sc sp ic ip :
  predict self w lens topk = Ok ((sc, sp), (ic, ip)) →
  (∀ i ps p, sp !! i = Some ps → p ∈ ps → (0 < p)%R) ∧
  (∀ i ps, ip !! i = Some ps →
     (∀ p, p ∈ ps → (0 < p <= 1)%R) ∧
     (sum_list ps <= 1)%R ∧
     (0 < clf_num_labels (intent_classifier self) →
      (Z.of_nat (clf_num_labels (intent_classifier self)) <= topk)%Z →
      sum_list ps = 1%R)).
Proof.
  intros Hp.
  destruct (predict_Ok_intents self w lens topk sc sp ic ip Hp) as [[lp ->] Hint].
  split.
  { intros i ps p Hi Hin. unfold Torch.exp in Hi.
    rewrite list_lookup_fmap in Hi.
    destruct (lp !! i) as [row|]; [|done]. injection Hi as <-.
    apply list_elem_of_fmap in Hin as (y & -> & _). apply exp_pos. }
  intros i ps Hi.
  destruct (predict_Ok_intents_inv self w lens topk _ _ _ _ Hp i) as [_ Hsc].
  destruct (Hsc ps Hi) as [scores Hscores].
  destruct (Hint i scores Hscores) as [_ Hip]. rewrite Hip in Hi. injection Hi as <-.
  set (probs := softmax_row scores).
  assert (gather probs (argsort_desc probs) ≡ₚ probs) as Hperm
    by apply gather_perm, argsort_desc_perm.
  assert (Forall (λ x, 0 <= x)%R (gather probs (argsort_desc probs))) as Hnn.
  { apply Forall_forall. intros x Hx. rewrite Hperm in Hx.
    apply softmax_row_pos in Hx. lra. }
  destruct (slice_to_prefix topk (gather probs (argsort_desc probs))) as [n Hn].
  destruct (decide (scores = [])) as [->|Hne].
  { assert (slice_to topk (gather probs (argsort_desc probs)) = []) as ->.
    { rewrite Hn. apply length_zero_iff_nil. rewrite length_take.
      unfold gather. rewrite length_fmap, length_argsort_desc. simpl. lia. }
    split; [by intros p ?%elem_of_nil|]. split; [unfold sum_list; simpl; lra|].
    intros Hpos _. exfalso.
    pose proof (forward_igts_cols self w None lens) as Hcols.
    rewrite Forall_lookup in Hcols. specialize (Hcols _ _ Hscores).
    simpl in Hcols. lia. }
  assert (sum_list (gather probs (argsort_desc probs)) = 1%R) as Hsum.
  { rewrite (sum_list_perm _ _ Hperm). by apply sum_softmax_row. }
  split; [|split].
  - intros p Hin. rewrite Hn in Hin. apply elem_of_take in Hin as (j & Hj & _).
    apply list_elem_of_lookup_2 in Hj. split.
    + apply (softmax_row_pos scores). fold probs. by rewrite <- Hperm.
    + rewrite <- Hsum. by apply sum_list_elem_le.
  - rewrite Hn, <- Hsum. by apply sum_list_take_le.
  - intros _ Hk. rewrite slice_to_take by lia. rewrite take_ge; [done|].
    unfold gather. rewrite length_fmap, length_argsort_desc.
    unfold probs. rewrite length_softmax_row.
    pose proof (forward_igts_cols self w None lens) as Hcols.
    rewrite Forall_lookup in Hcols. rewrite (Hcols _ _ Hscores). lia.
Qed.


(** X5.  [predict] does not validate [topk]; the intent lists are cut by
    Python's slice [[:, :topk]].  Whenever [predict] returns, an example
    with [n] intent classes gets [min topk n] intents for a [topk] of zero
    or more (none for zero), and for a negative [topk] all but the
    [-topk] least probable ones; candidates and probabilities stay
    paired. *)
Theorem predict_intent_count w lens topk sc sp ic ip :
  predict self w lens topk = Ok ((sc, sp), (ic, ip)) →
  length ic = length w ∧ length ip = length w ∧
  ∀ i ids, ic !! i = Some ids →
    ∃ ps, ip !! i = Some ps ∧ length ps = length ids ∧
      length ids
      = if (0 <=? topk)%Z
        then Z.to_nat topk `min` clf_num_labels (intent_classifier self)
        else clf_num_labels (intent_classifier self) - Z.to_nat (- topk).
Proof.
  intros Hp.
  destruct (predict_Ok_intents self w lens topk sc sp ic ip Hp) as [_ Hint].
  assert (length ic = length w ∧ length ip = length w) as [Hlic Hlip].
  { revert Hp. rewrite predict_unfold.
    rewrite <- (length_forward_igts self w None lens).
    generalize (forward self w None lens).2. intros igts.
    destruct (Utils.decode (decoder_of self w lens topk)) as [[sc' lp]|e]; [|done].
    intros [= <- <- <- <-].
    unfold sort, softmax. cbn [fst snd]. by rewrite !length_fmap. }
  split; [done|]. split; [done|].
  intros i ids Hids.
  destruct (predict_Ok_intents_inv self w lens topk _ _ _ _ Hp i) as [Hsc _].
  destruct (Hsc ids Hids) as [scores Hscores].
  destruct (Hint i scores Hscores) as [Hic Hip]. rewrite Hic in Hids.
  injection Hids as <-. eexists. split; [exact Hip|].
  pose proof (forward_igts_cols self w None lens) as Hcols.
  rewrite Forall_lookup in Hcols. specialize (Hcols _ _ Hscores). simpl in Hcols.
  rewrite !length_slice_to_any. unfold gather.
  rewrite length_fmap, length_argsort_desc, length_softmax_row, Hcols. done.
Qed.

End predict.

(** *** Runs on the small model *)

#[local] Existing Instance SortsFacts.stable.

Lemma forward_slots_positionwise_witness :
  (∀ x, call_classifier ToyModel.model (slot_classifier ToyModel.model) x
        = (λ _, Toy.zeros 4) <$> x) ∧
  Forall (λ rows, length rows = size1 [[[1%R]; [2%R]]; [[3%R]; [4%R]]])
         [[[1%R]; [2%R]]; [[3%R]; [4%R]]] ∧
  _forward_slots ToyModel.model [[[1%R]; [2%R]]; [[3%R]; [4%R]]]
  = (λ rows : list (list R), (λ _, Toy.zeros 4) <$> rows)
      <$> [[[1%R]; [2%R]]; [[3%R]; [4%R]]].
Proof.
  assert (∀ x, call_classifier ToyModel.model (slot_classifier ToyModel.model) x
               = (λ _, Toy.zeros 4) <$> x) as Hf by reflexivity.
  assert (Forall (λ rows, length rows = size1 [[[1%R]; [2%R]]; [[3%R]; [4%R]]])
                 [[[1%R]; [2%R]]; [[3%R]; [4%R]]]) as Hrect
    by (by repeat constructor).
  split; [exact Hf|]. split; [exact Hrect|].
  exact (forward_slots_positionwise ToyModel.model (λ _, Toy.zeros 4)
           [[[1%R]; [2%R]]; [[3%R]; [4%R]]] Hf Hrect).
Defined.

Lemma predict_probabilities_witness :
  ∃ sc sp ic ip,
    predict ToyModel.model Toy.w Toy.lens 2 = Ok ((sc, sp), (ic, ip)) ∧
    (∀ i ps p, sp !! i = Some ps → p ∈ ps → (0 < p)%R) ∧
    (∀ i ps, ip !! i = Some ps →
       (∀ p, p ∈ ps → (0 < p <= 1)%R) ∧
       (sum_list ps <= 1)%R ∧
       (0 < clf_num_labels (intent_classifier ToyModel.model) →
        (Z.of_nat (clf_num_labels (intent_classifier ToyModel.model)) <= 2)%Z →
        sum_list ps = 1%R)).
Proof.
  destruct (predict_slots ToyModel.model Toy.w Toy.lens 2 toy_lens_ok eq_refl)
    as (sc & sp & ic & ip & Hp & _).
  exists sc, sp, ic, ip. split; [exact Hp|].
  exact (predict_probabilities ToyModel.model Toy.w Toy.lens 2 sc sp ic ip Hp).
Defined.


Lemma predict_intent_count_witness :
  ∃ sc sp ic ip,
    predict ToyModel.model Toy.w Toy.lens 1 = Ok ((sc, sp), (ic, ip)) ∧
    length ic = length Toy.w ∧ length ip = length Toy.w ∧
    ∀ i ids, ic !! i = Some ids →
      ∃ ps, ip !! i = Some ps ∧ length ps = length ids ∧
        length ids
        = if (0 <=? 1)%Z
          then Z.to_nat 1 `min` clf_num_labels (intent_classifier ToyModel.model)
          else clf_num_labels (intent_classifier ToyModel.model) - Z.to_nat (- 1).
Proof.
  destruct (predict_slots ToyModel.model Toy.w Toy.lens 1 toy_lens_ok eq_refl)
    as (sc & sp & ic & ip & Hp & _).
  exists sc, sp, ic, ip. split; [exact Hp|].
  exact (predict_intent_count ToyModel.model Toy.w Toy.lens 1 sc sp ic ip Hp).
Defined.

End JluExtras.

(** ** More on Python strings *)

Module PyMore.
Import Py PyFacts PredictSpec.

Lemma flush_acc cur acc : flush cur acc = acc ++ flush cur [].
Proof. destruct cur; simpl; [by rewrite app_nil_r|done]. Qed.

Lemma split_go_acc s cur acc : split_go s cur acc = acc ++ split_go s cur [].
Proof.
  revert cur acc. induction s as [|c s IH]; intros cur acc; simpl.
  - apply flush_acc.
  - destruct (is_space c); [|apply IH].
    rewrite IH, (IH _ (flush cur [])), (flush_acc cur acc). by rewrite app_assoc.
Qed.

Lemma split_go_word w rest cur acc :
  no_space w = true →
  split_go (w +:+ rest) cur acc = split_go rest (cur +:+ w) acc.
Proof.
  revert cur. induction w as [|c w IH]; intros cur Hw.
  - by rewrite append_nil_l, append_nil_r.
  - simpl in Hw. apply andb_true_iff in Hw as [Hc Hw].
    apply negb_true_iff in Hc. rewrite append_cons. simpl. rewrite Hc.
    rewrite IH by done. by rewrite append_assoc, append_cons, append_nil_l.
Qed.

Lemma split_go_join ws acc :
  Forall token ws → split_go (join " " ws) "" acc = acc ++ ws.
Proof.
  intros Hws. revert acc.
  induction Hws as [|w ws [Hne Hw] Hws IH]; intros acc.
  - simpl. by rewrite app_nil_r.
  - destruct ws as [|w' ws].
    + simpl join. rewrite <- (append_nil_r w) at 1.
      rewrite split_go_word by done. rewrite append_nil_l. simpl.
      by destruct w.
    + change (join " " (w :: w' :: ws))
        with (w +:+ " " +:+ join " " (w' :: ws)).
      rewrite split_go_word by done. rewrite append_nil_l.
      change (" " +:+ join " " (w' :: ws))
        with (String " " (join " " (w' :: ws))).
      simpl split_go. rewrite IH.
      destruct w; [done|]. simpl. by rewrite <- app_assoc.
Qed.

(** Joining words with single spaces and splitting again gives the
    words back. *)
Lemma split_join ws : Forall token ws → split (join " " ws) = ws.
Proof. intros Hws. unfold split. by rewrite split_go_join. Qed.

Lemma no_space_snoc cur c :
  no_space cur = true → is_space c = false → no_space (cur +:+ String c "") = true.
Proof.
  intros Hcur Hc. induction cur as [|d cur IH].
  - rewrite append_nil_l. simpl. by rewrite Hc.
  - rewrite append_cons. simpl in *. apply andb_true_iff in Hcur as [Hd Hcur].
    by rewrite Hd, IH.
Qed.

Lemma flush_tokens cur acc :
  no_space cur = true → Forall token acc → Forall token (flush cur acc).
Proof.
  intros Hcur Hacc. destruct cur as [|c cur]; simpl; [done|].
  apply Forall_app. split; [done|]. by repeat constructor.
Qed.

Lemma split_go_tokens s cur acc :
  no_space cur = true → Forall token acc → Forall token (split_go s cur acc).
Proof.
  revert cur acc. induction s as [|c s IH]; intros cur acc Hcur Hacc; simpl.
  - by apply flush_tokens.
  - destruct (is_space c) eqn:Hc.
    + apply IH; [done|]. by apply flush_tokens.
    + apply IH; [|done]. by apply no_space_snoc.
Qed.

(** [str.split] yields words that are not empty and hold no whitespace. *)
Lemma split_tokens s : Forall token (split s).
Proof. by apply split_go_tokens. Qed.

(** Normalising a label keeps its words, and a normalised label is left
    as it is. *)
Lemma split_normalised s : split (join " " (split s)) = split s.
Proof. apply split_join, split_tokens. Qed.

Lemma append_inj_l (pre s1 s2 : string) : pre +:+ s1 = pre +:+ s2 → s1 = s2.
Proof.
  induction pre as [|c pre IH]; [by rewrite !append_nil_l|].
  rewrite !append_cons. intros [= Heq]. by apply IH.
Qed.

(** A relative file name is put behind a prefix that depends on the
    directory only. *)
Lemma path_join_relative d :
  ∃ pre, ∀ c f, c ≠ "/"%char → path_join d (String c f) = pre +:+ String c f.
Proof.
  destruct d as [|c0 d].
  - exists "". intros c f Hc. unfold path_join. rewrite append_nil_l.
    destruct (decide (c = "/"%char)) as [->|]; [done|].
    destruct c as [[] [] [] [] [] [] [] []]; done.
  - destruct (decide (String.get (String.length (String c0 d) - 1) (String c0 d)
                      = Some "/"%char)) as [Hd|Hd].
    + exists (String c0 d). intros c f Hc. unfold path_join.
      rewrite decide_True by done.
      destruct c as [[] [] [] [] [] [] [] []]; done.
    + exists (String c0 d +:+ "/"). intros c f Hc. unfold path_join.
      rewrite decide_False by done. rewrite append_assoc.
      destruct c as [[] [] [] [] [] [] [] []]; done.
Qed.

End PyMore.

(** ** More on [save] *)

Module SaveMore.
Import Py PyFacts PyMore MFacts SaveFacts Predict PredictSpec GenerateFacts.

Lemma World_eq (σ1 σ2 : World) :
  files σ1 = files σ2 → progress_total σ1 = progress_total σ2 →
  progress_n σ1 = progress_n σ2 → calls σ1 = calls σ2 → σ1 = σ2.
Proof. destruct σ1, σ2. simpl. by intros -> -> -> ->. Qed.

(** What a sequence of file writes leaves at a path: the rows of the last
    write that went there, or what was there before. *)
Lemma lookup_foldl_write jobs (m : gmap string string) path :
  foldl (λ fs '(rows, p), <[p := unlines rows]> fs) m jobs !! path
  = match last_write jobs path with
    | Some r => Some (unlines r)
    | None => m !! path
    end.
Proof.
  revert m. induction jobs as [|[rows p] jobs IH]; intros m; [done|].
  simpl. rewrite IH. destruct (last_write jobs path) as [r|]; [done|].
  destruct (decide (path = p)) as [->|Hne].
  - by rewrite lookup_insert_eq.
  - by rewrite lookup_insert_ne.
Qed.

Lemma last_write_notin jobs path :
  path ∉ jobs.*2 → last_write jobs path = None.
Proof.
  induction jobs as [|[rows p] jobs IH]; [done|].
  simpl. rewrite not_elem_of_cons. intros [Hne Hnotin].
  rewrite IH by done. by rewrite decide_False.
Qed.

Lemma last_write_in jobs path :
  path ∈ jobs.*2 → is_Some (last_write jobs path).
Proof.
  induction jobs as [|[rows p] jobs IH]; simpl.
  - by intros ?%elem_of_nil.
  - destruct (last_write jobs path) as [r|] eqn:Hl; [by eexists|].
    intros [->|Hin]%elem_of_cons.
    + rewrite decide_True by done. by eexists.
    + by destruct (IH Hin).
Qed.

Lemma last_write_last jobs i rows path :
  jobs !! i = Some (rows, path) →
  (∀ j, i < j → jobs.*2 !! j ≠ Some path) →
  last_write jobs path = Some rows.
Proof.
  revert i. induction jobs as [|[r0 p0] jobs IH]; intros i Hi Hlast; [done|].
  destruct i as [|i]; simpl in *.
  - injection Hi as -> ->. rewrite last_write_notin, decide_True; [done..|].
    intros [j Hj]%list_elem_of_lookup. apply (Hlast (S j)); [lia|done].
  - erewrite IH; [done|exact Hi|]. intros j Hj. apply (Hlast (S j)). lia.
Qed.

Section save.
Context (env : Env).

Lemma jobs_paths args labels intents pl pi :
  (zip (columns env labels intents pl pi) (paths args)).*2 = paths args.
Proof. by apply snd_zip. Qed.


(** X6.  [save] raises no exception of its own (every path being one that
    can be opened for writing) and touches nothing but the files at its
    four paths; it checks neither that the columns are equally long nor
    that the paths differ.  Each file holds its own column in full, one
    entry per line, and where two file names coincide the column written
    later is the one that stays. *)
Theorem save_last_writer_wins args labels intents pl pi σ :
  ∃ σ', save env args labels intents pl pi σ = (Ok (), σ') ∧
    progress_total σ' = progress_total σ ∧
    progress_n σ' = progress_n σ ∧
    calls σ' = calls σ ∧
    (∀ path, path ∉ paths args → files σ' !! path = files σ !! path) ∧
    (∀ i path rows,
       paths args !! i = Some path →
       columns env labels intents pl pi !! i = Some rows →
       (∀ j, i < j → paths args !! j ≠ Some path) →
       files σ' !! path = Some (unlines rows)).
Proof.
  destruct (save_spec env args labels intents pl pi σ)
    as (σ' & Hrun & Hfiles & Hpt & Hpn & Hcalls).
  exists σ'. do 4 (split; [done|]). rewrite Hfiles. split.
  - intros path Hpath. rewrite lookup_foldl_write, last_write_notin; [done|].
    by rewrite jobs_paths.
  - intros i path rows Hp Hc Hlast.
    rewrite lookup_foldl_write.
    rewrite (last_write_last _ i rows path); [done| |].
    + apply lookup_zip_with_Some. eauto.
    + by rewrite jobs_paths.
Qed.

(** X7.  [save] opens its files for writing, not for appending: what it
    leaves at its paths does not depend on what was there before, and
    saving the same results a second time changes nothing. *)
Theorem save_overwrites args labels intents pl pi σ :
  ∃ σ', save env args labels intents pl pi σ = (Ok (), σ') ∧
    save env args labels intents pl pi σ' = (Ok (), σ') ∧
    ∀ σ0, ∃ σ0', save env args labels intents pl pi σ0 = (Ok (), σ0') ∧
      ∀ path, path ∈ paths args → files σ0' !! path = files σ' !! path.
Proof.
  destruct (save_spec env args labels intents pl pi σ)
    as (σ' & Hrun & Hfiles & Hpt & Hpn & Hcalls).
  exists σ'. split; [done|]. split.
  - destruct (save_spec env args labels intents pl pi σ')
      as (σ'' & Hrun' & Hfiles' & Hpt' & Hpn' & Hcalls').
    rewrite Hrun'. f_equal. apply World_eq; [|done..].
    rewrite Hfiles'. apply map_eq. intros path.
    rewrite lookup_foldl_write.
    destruct (last_write _ path) as [r|] eqn:Hl; [|done].
    by rewrite Hfiles, lookup_foldl_write, Hl.
  - intros σ0.
    destruct (save_spec env args labels intents pl pi σ0)
      as (σ0' & Hrun0 & Hfiles0 & _).
    exists σ0'. split; [done|]. intros path Hpath.
    rewrite Hfiles0, Hfiles, !lookup_foldl_write.
    rewrite <- (jobs_paths args labels intents pl pi) in Hpath.
    by destruct (last_write_in _ _ Hpath) as [r ->].
Qed.

(** X8.  The label file can be read back: with four distinct paths, the
    lines of the label file, split at whitespace, are the words of the
    labels saved, in order; every line is a sequence of words joined by
    single spaces, so that saving a line again leaves it as it is. *)
Theorem save_label_file_round_trip args labels intents pl pi σ :
  NoDup (paths args) →
  ∃ σ' t, save env args labels intents pl pi σ = (Ok (), σ') ∧
    files σ' !! path_join (save_dir args) (label_filename args) = Some t ∧
    split <$> lines t = split <$> labels ∧
    Forall (λ line, Forall token (split line) ∧ join " " (split line) = line)
           (lines t).
Proof.
  intros Hnd.
  destruct (save_files env args labels intents pl pi σ Hnd)
    as (σ' & Hrun & H1 & _).
  exists σ', (unlines ((λ label, join " " (split label)) <$> labels)).
  split; [done|]. split; [done|].
  rewrite lines_unlines
    by (apply Forall_fmap, Forall_true; intros label; apply normalised_one_line).
  split.
  - rewrite <- list_fmap_compose. apply list_fmap_ext. intros _ label _. simpl.
    apply split_normalised.
  - apply Forall_fmap, Forall_true. intros label. simpl.
    split; [apply split_tokens|]. by rewrite split_normalised.
Qed.

End save.

(** X9.  With the default file names the four output paths are pairwise
    distinct, whatever the directory given as [--save-dir]. *)
Theorem default_paths_distinct wp wv lv iv ck dir mp :
  NoDup (paths (parse_required wp wv lv iv ck dir mp)).
Proof.
  unfold paths. cbn [save_dir label_filename intent_filename label_probs_filename
                      intent_probs_filename parse_required].
  change (filename_default "label") with "label.txt"%string.
  change (filename_default "intent") with "intent.txt"%string.
  change (probs_filename_default "label") with "label-probs.txt"%string.
  change (probs_filename_default "intent") with "intent-probs.txt"%string.
  destruct (path_join_relative dir) as [pre Hpre].
  cbn [fmap list_fmap]. rewrite !Hpre by done.
  change (NoDup ((λ f, pre +:+ f)
                   <$> ["label.txt"; "intent.txt"; "label-probs.txt";
                        "intent-probs.txt"]%string)).
  apply NoDup_fmap_2.
  - intros f1 f2. apply append_inj_l.
  - repeat (apply NoDup_cons; split;
              [rewrite ?not_elem_of_cons; repeat split; try done;
               apply not_elem_of_nil|]).
    apply NoDup_nil_2.
Qed.

End SaveMore.

(** ** More on the predictor and on [generate] *)

Module GenerateMore.
Import Py PyFacts MFacts SaveFacts LoaderFacts Predict PredictSpec PredictorFacts
       GenerateFacts SaveMore.

Section run.
Context (env : Env) `{Torch.Sort}.

(** One turn of the batch loop. *)
Lemma inference_loop_cons self b rest acc σ :
  inference_loop self (b :: rest) acc σ
  = let σ1 := started self b σ in
    match select_data (b_tensor b) with
    | Err e => (Err e, σ1)
    | Ok data =>
        match Jlu.predict (model self) data.1 data.2 (topk self) with
        | Err e => (Err e, add_call data σ1)
        | Ok out =>
            match batch_results self data.2 out with
            | Err e => (Err e, add_call data σ1)
            | Ok res => inference_loop self rest (extend acc res) (add_call data σ1)
            end
        end
    end.
Proof.
  cbn [inference_loop]. rewrite bind_on_batch_started. fold (started self b σ).
  cbv zeta.
  destruct (select_data (b_tensor b)) as [data|e] eqn:Hd.
  - rewrite (bind_lift_Ok _ _ _ _ eq_refl). unfold model_call.
    unfold mbind at 1, M_bind at 1. unfold mbind at 1, M_bind at 1.
    cbn [modify lift].
    destruct (Jlu.predict (model self) data.1 data.2 (topk self)) as [out|e];
      [|done].
    unfold mbind at 1, M_bind at 1. cbn [lift].
    by destruct (batch_results self data.2 out) as [res|e].
  - by rewrite (bind_lift_Err _ _ _ _ eq_refl).
Qed.

Lemma started_frame self b σ :
  files (started self b σ) = files σ ∧
  progress_total (started self b σ) = progress_total σ ∧
  calls (started self b σ) = calls σ ∧
  progress_n (started self b σ)
  = if progress self then progress_n σ + length (b_string b) else progress_n σ.
Proof. unfold started. by destruct (progress self). Qed.

(** Whatever its outcome, the batch loop leaves the files alone; a
    progress counter that is enabled advances by the size of every batch
    that was started, and one that is disabled stays where it is. *)
Lemma inference_loop_frame self bs acc σ :
  files (inference_loop self bs acc σ).2 = files σ ∧
  progress_total (inference_loop self bs acc σ).2 = progress_total σ ∧
  progress_n σ ≤ progress_n (inference_loop self bs acc σ).2 ∧
  progress_n (inference_loop self bs acc σ).2
    ≤ progress_n σ + sum_list_with (λ b, length (b_string b)) bs ∧
  (progress self = false →
   progress_n (inference_loop self bs acc σ).2 = progress_n σ) ∧
  (∀ r, progress self = true → (inference_loop self bs acc σ).1 = Ok r →
        progress_n (inference_loop self bs acc σ).2
        = progress_n σ + sum_list_with (λ b, length (b_string b)) bs).
Proof.
  revert acc σ. induction bs as [|b bs IH]; intros acc σ.
  - simpl. repeat split; lia.
  - rewrite inference_loop_cons. cbv zeta. cbn [sum_list_with].
    destruct (started_frame self b σ) as (Hsf & Hst & _ & Hsn).
    assert (progress_n σ ≤ progress_n (started self b σ) ∧
            progress_n (started self b σ) ≤ progress_n σ + length (b_string b))
      as [Hs1 Hs2] by (rewrite Hsn; destruct (progress self); lia).
    assert (progress self = false → progress_n (started self b σ) = progress_n σ)
      as Hs3 by (intros Hp; by rewrite Hsn, Hp).
    destruct (select_data (b_tensor b)) as [data|e];
      [|simpl; split; [done|]; split; [done|]; split; [lia|]; split; [lia|];
        split; done].
    destruct (Jlu.predict (model self) data.1 data.2 (topk self)) as [out|e];
      [|simpl; split; [done|]; split; [done|]; split; [lia|]; split; [lia|];
        split; done].
    destruct (batch_results self data.2 out) as [res|e];
      [|simpl; split; [done|]; split; [done|]; split; [lia|]; split; [lia|];
        split; done].
    destruct (IH (extend acc res) (add_call data (started self b σ)))
      as (Hf & Hpt & Hlo & Hhi & Hoff & Hok).
    simpl in Hf, Hpt, Hlo, Hhi, Hoff, Hok.
    split; [congruence|]. split; [congruence|]. split; [lia|]. split; [lia|].
    split.
    + intros Hp. rewrite (Hoff Hp), Hsn, Hp. done.
    + intros r Hp Hr. rewrite (Hok r Hp Hr), Hsn, Hp. lia.
Qed.

(** A prediction run is the batch loop, started from empty columns with
    the progress counter at zero. *)
Lemma predict_loop self dl σ :
  predict env self dl σ
  = inference_loop self (batches env dl) empty_results
      (set_progress (length (dataset dl)) 0 σ).
Proof.
  unfold predict, inference, on_run_started. rewrite bind_modify.
  unfold mbind at 1, M_bind at 1. unfold empty_results.
  by destruct (inference_loop _ _ _ _) as [[r|e] σ'].
Qed.

Lemma generate_loader_Err args e σ :
  DataLoader_new (run_dataset env args) (batch_size args) (run_collate env args)
    = Err e →
  generate env args σ = (Err e, σ).
Proof.
  intros He. unfold generate. fold (run_vocabs env args).
  change (getitem (run_vocabs env args) 0) with (Ok (load_pkl env (word_vocab args))).
  rewrite (bind_lift_Ok _ _ _ (load_pkl env (word_vocab args)) eq_refl).
  fold (run_dataset env args). fold (run_collate env args).
  by rewrite (bind_lift_Err _ _ _ _ He).
Qed.

Lemma DataLoader_new_cases data bs (c : list Example → Batch) :
  ((bs ≤ 0)%Z ∧ DataLoader_new data bs c = Err ValueError) ∨
  ((0 < bs)%Z ∧
   DataLoader_new data bs c
   = Ok {| dataset := data; dl_batch_size := Z.to_nat bs;
           shuffle := false; collate_fn := c |}).
Proof.
  unfold DataLoader_new. destruct (Z.leb_spec bs 0); [left|right]; done.
Qed.

Lemma generate_model_Err args dl e σ :
  DataLoader_new (run_dataset env args) (batch_size args) (run_collate env args)
    = Ok dl →
  prepare_model env args (run_vocabs env args) = Err e →
  generate env args σ = (Err e, σ).
Proof.
  intros Hdl He. apply generate_prepare_Err_exact; [|done].
  by destruct (DataLoader_new_cases (run_dataset env args) (batch_size args)
                 (run_collate env args)) as [[_ Hc]|[? _]]; [congruence|].
Qed.

(** The part of [generate] that follows prediction. *)
Lemma generate_after_predict args dl mdl vocab labels pl intents pi σ σ1 :
  DataLoader_new (run_dataset env args) (batch_size args) (run_collate env args)
    = Ok dl →
  prepare_model env args (run_vocabs env args) = Ok (mdl, vocab) →
  predict env (run_predictor env args mdl vocab) dl σ
    = (Ok ((labels, pl), (intents, pi)), σ1) →
  generate env args σ
  = match firsts labels, firsts intents, firsts pl, firsts pi with
    | Ok l1, Ok i1, Ok p1, Ok q1 => save env args l1 i1 p1 q1 σ1
    | Err e, _, _, _ | Ok _, Err e, _, _ | Ok _, Ok _, Err e, _
    | Ok _, Ok _, Ok _, Err e => (Err e, σ1)
    end.
Proof.
  intros Hdl Hm Hrun. rewrite (generate_unfold env args dl mdl vocab σ Hdl Hm).
  rewrite (bind_Ok _ _ _ _ _ Hrun). cbv beta iota.
  destruct (firsts labels) as [l1|e];
    [rewrite (bind_lift_Ok _ _ _ l1 eq_refl)
    |by rewrite (bind_lift_Err _ _ _ e eq_refl)].
  destruct (firsts intents) as [i1|e];
    [rewrite (bind_lift_Ok _ _ _ i1 eq_refl)
    |by rewrite (bind_lift_Err _ _ _ e eq_refl)].
  destruct (firsts pl) as [p1|e];
    [rewrite (bind_lift_Ok _ _ _ p1 eq_refl)
    |by rewrite (bind_lift_Err _ _ _ e eq_refl)].
  destruct (firsts pi) as [q1|e];
    [rewrite (bind_lift_Ok _ _ _ q1 eq_refl)
    |by rewrite (bind_lift_Err _ _ _ e eq_refl)].
  done.
Qed.

Lemma firsts_IndexError {A} (xs : list (list A)) e :
  firsts xs = Err e → e = IndexError.
Proof.
  unfold firsts. induction xs as [|x xs IH]; [done|]. simpl.
  destruct x as [|y x]; simpl; [by intros [= <-]|].
  destruct (result_mapM _ xs) as [ys|e']; [done|]. intros [= <-]. by apply IH.
Qed.

End run.

(** Every batch but the last is full. *)
Lemma chunks_fuel_full {A} fuel n (l : list A) i chunk :
  chunks_fuel fuel n l !! i = Some chunk →
  S i < length (chunks_fuel fuel n l) → length chunk = n.
Proof.
  revert l i. induction fuel as [|fuel IH]; intros l i; [done|].
  destruct l as [|x l]; [done|]. cbn [chunks_fuel].
  destruct i as [|i]; simpl.
  - intros [= <-] Hlen. rewrite length_take.
    destruct (decide (n ≤ length (x :: l))) as [|Hshort]; [lia|].
    rewrite drop_ge in Hlen by lia.
    destruct fuel; simpl in Hlen; lia.
  - intros Hi Hlen. apply (IH _ i Hi). lia.
Qed.

Lemma chunks_full {A} n (l : list A) i chunk :
  chunks n l !! i = Some chunk → S i < length (chunks n l) → length chunk = n.
Proof. apply chunks_fuel_full. Qed.

Lemma chunks_fuel_count {A} fuel n (l : list A) :
  0 < n → length l ≤ fuel →
  length l ≤ length (chunks_fuel fuel n l) * n ∧
  length (chunks_fuel fuel n l) * n < length l + n.
Proof.
  intros Hn. revert l. induction fuel as [|fuel IH]; intros l Hl.
  - destruct l; simpl in *; lia.
  - destruct l as [|x l]; [simpl; lia|]. cbn [chunks_fuel length].
    destruct (decide (n ≤ length (x :: l))) as [Hfull|Hshort].
    + destruct (IH (drop n (x :: l))) as [Hlo Hhi].
      { rewrite length_drop. simpl in *. lia. }
      rewrite length_drop in Hlo, Hhi. simpl in *. lia.
    + rewrite drop_ge by lia.
      assert (chunks_fuel fuel n (@nil A) = []) as -> by by destruct fuel.
      simpl in *. lia.
Qed.

Lemma chunks_count {A} n (l : list A) :
  0 < n →
  length l ≤ length (chunks n l) * n ∧ length (chunks n l) * n < length l + n.
Proof. intros Hn. by apply chunks_fuel_count. Qed.

End GenerateMore.

(** ** Further properties of [predict.py] *)

Module PredictExtras.
Import Py PyFacts MFacts SaveFacts LoaderFacts Predict PredictSpec PredictorFacts
       GenerateFacts SaveMore GenerateMore.

Section extras.
Context (env : Env) `{Torch.Sort}.

(** X10.  The outcomes of [prepare_model], in the order the code reaches
    them, where the model class can be created and the checkpoint file
    read: [IndexError] with fewer than three vocabularies; else [KeyError]
    when the checkpoint has no entry ["model"]; else [RuntimeError] when
    that entry does not match the parameters of the model built for the
    three vocabulary sizes; else [UnboundLocalError] with
    [--expand-vocab]; else that model with the checkpoint's parameters,
    together with [vocabs[0]]. *)
Theorem prepare_model_outcome args vocabs :
  (length vocabs < 3 → prepare_model env args vocabs = Err IndexError) ∧
  (3 ≤ length vocabs →
   torch_load env (ckpt_path args) !! "model"%string = None →
   prepare_model env args vocabs = Err KeyError) ∧
  (∀ v0 v1 v2 sd,
     vocabs !! 0 = Some v0 → vocabs !! 1 = Some v1 → vocabs !! 2 = Some v2 →
     torch_load env (ckpt_path args) !! "model"%string = Some sd →
     (strict_match env (fresh_model env args v0 v1 v2) sd = false →
      prepare_model env args vocabs = Err RuntimeError) ∧
     (strict_match env (fresh_model env args v0 v1 v2) sd = true →
      expand_vocab args = true →
      prepare_model env args vocabs = Err UnboundLocalError) ∧
     (strict_match env (fresh_model env args v0 v1 v2) sd = true →
      expand_vocab args = false →
      prepare_model env args vocabs = Ok (loaded_model env args v0 v1 v2 sd, v0))).
Proof.
  split; [|split].
  - intros Hlen. unfold prepare_model, getitem.
    destruct vocabs as [|v0 [|v1 [|v2 vocabs]]]; simpl in *; [done..|lia].
  - intros Hlen Hsd. unfold prepare_model, getitem.
    destruct vocabs as [|v0 [|v1 [|v2 vocabs]]]; simpl in *; [lia..|].
    by rewrite Hsd.
  - intros v0 v1 v2 sd H0' H1' H2' Hsd.
    split; [|split].
    + intros Hs. unfold prepare_model, getitem, load_state_dict.
      rewrite H0', H1', H2'. simpl. rewrite Hsd. simpl.
      fold (fresh_model env args v0 v1 v2). by rewrite Hs.
    + intros Hs He. by apply (prepare_model_expand env args _ v0 v1 v2 sd).
    + intros Hs He. unfold prepare_model, getitem, load_state_dict, loaded_model.
      rewrite H0', H1', H2'. simpl. rewrite Hsd. simpl.
      fold (fresh_model env args v0 v1 v2). rewrite Hs. simpl. by rewrite He.
Qed.

(** X11.  With [--expand-vocab] no model is ever returned: [prepare_model]
    fails for every list of vocabularies, and [generate] fails before any
    batch is scored or any file written. *)
Theorem generate_expand_vocab_fails args σ :
  expand_vocab args = true →
  (∀ vocabs mdl vocab, prepare_model env args vocabs ≠ Ok (mdl, vocab)) ∧
  ∃ e, generate env args σ = (Err e, σ).
Proof.
  intros He.
  assert (∀ vocabs mdl vocab, prepare_model env args vocabs ≠ Ok (mdl, vocab))
    as Hnever.
  { intros vocabs mdl vocab Hm.
    destruct (prepare_model_cases env args vocabs)
      as [(e & Herr & _)|(v0 & v1 & v2 & sd & _ & _ & _ & _ & _ & Hno & _)];
      congruence. }
  split; [exact Hnever|].
  destruct (DataLoader_new_cases (run_dataset env args) (batch_size args)
              (run_collate env args)) as [[_ Hdl]|[_ Hdl]].
  { exists ValueError. by apply generate_loader_Err. }
  destruct (prepare_model env args (run_vocabs env args)) as [[mdl vocab]|e] eqn:Hm.
  { by destruct (Hnever _ _ _ Hm). }
  exists e. by eapply generate_model_Err.
Qed.

(** X12.  What [generate] holds once [prepare_model] has returned: the
    vocabulary list it passes on is the list it loaded, unchanged by the
    assignment to [vocabs[0]]; the pad ids it gave the collator are the
    model's three vocabulary sizes; the embedding is built for as many
    words as the word vocabulary has, and the slot and intent classifiers
    score one class more than their vocabularies have entries, so that
    the label pad id is the last slot class. *)
Theorem prepare_model_sizes args mdl vocab :
  prepare_model env args (run_vocabs env args) = Ok (mdl, vocab) →
  vocabs (run_predictor env args mdl vocab) = run_vocabs env args ∧
  run_collate env args = TextSequenceBatchCollator (Jlu.vocab_sizes mdl) ∧
  Jlu.vocab_sizes mdl
  = [len (load_pkl env (word_vocab args)); len (load_pkl env (label_vocab args));
     len (load_pkl env (intent_vocab args))] ∧
  Jlu.emb_vocab_size (Jlu.embeds mdl) = len (load_pkl env (word_vocab args)) ∧
  Jlu.clf_num_labels (Jlu.slot_classifier mdl)
  = len (load_pkl env (label_vocab args)) + 1 ∧
  Jlu.clf_num_labels (Jlu.intent_classifier mdl)
  = len (load_pkl env (intent_vocab args)) + 1.
Proof.
  intros Hm.
  destruct (prepare_model_cases env args (run_vocabs env args))
    as [(e & Herr & _)|(v0 & v1 & v2 & sd & H0' & H1' & H2' & _ & _ & _ & Hok)];
    [congruence|].
  rewrite Hok in Hm. injection Hm as <- <-.
  unfold run_vocabs in H0', H1', H2'. simpl in H0', H1', H2'.
  injection H0' as <-. injection H1' as <-. injection H2' as <-.
  done.
Qed.

(** X13.  [generate] takes element [0] of every candidate list without a
    check: whatever the predictor returns, if an example has no candidate
    in one of the four columns, the run fails with [IndexError] after
    prediction and no file is written. *)
Theorem generate_empty_candidates args dl mdl vocab labels pl intents pi σ σ1 :
  DataLoader_new (run_dataset env args) (batch_size args) (run_collate env args)
    = Ok dl →
  prepare_model env args (run_vocabs env args) = Ok (mdl, vocab) →
  predict env (run_predictor env args mdl vocab) dl σ
    = (Ok ((labels, pl), (intents, pi)), σ1) →
  [] ∈ labels ∨ [] ∈ intents ∨ [] ∈ pl ∨ [] ∈ pi →
  generate env args σ = (Err IndexError, σ1) ∧ files σ1 = files σ.
Proof.
  intros Hdl Hm Hrun Hin. split.
  - rewrite (generate_after_predict env args dl mdl vocab _ _ _ _ σ σ1 Hdl Hm Hrun).
    destruct (firsts labels) as [l1|e] eqn:H1;
      [|by rewrite (firsts_IndexError _ _ H1)].
    destruct (firsts intents) as [i1|e] eqn:H2;
      [|by rewrite (firsts_IndexError _ _ H2)].
    destruct (firsts pl) as [p1|e] eqn:H3;
      [|by rewrite (firsts_IndexError _ _ H3)].
    destruct (firsts pi) as [q1|e] eqn:H4;
      [|by rewrite (firsts_IndexError _ _ H4)].
    destruct Hin as [Hin|[Hin|[Hin|Hin]]]; apply firsts_Err in Hin; congruence.
  - pose proof (inference_loop_frame (run_predictor env args mdl vocab)
                  (batches env dl) empty_results
                  (set_progress (length (dataset dl)) 0 σ)) as [Hf _].
    rewrite <- predict_loop, Hrun in Hf. exact Hf.
Qed.


(** X17.  A batch size of zero or less is refused by the loader: the run
    fails with [ValueError] before the checkpoint is read, with nothing
    scored or written. *)
Theorem generate_batch_size_invalid args σ :
  (batch_size args ≤ 0)%Z → generate env args σ = (Err ValueError, σ).
Proof.
  intros Hbs. apply generate_loader_Err.
  by destruct (DataLoader_new_cases (run_dataset env args) (batch_size args)
                 (run_collate env args)) as [[_ Hc]|[? _]]; [|lia].
Qed.


(** X15.  The progress counter of a prediction run, [utils.tqdm] taken to
    be [tqdm]: its total is the number of examples of the dataset and it
    never exceeds the total; without [--show-progress] it is disabled and
    stays at zero; with [--show-progress] it has reached the total when
    the run returns.  The loader is built as [generate] builds it, with
    any collate function that keeps one string per example. *)
Theorem predict_progress self data bs (c : list Example → Batch) dl σ :
  (∀ exs, length (b_string (c exs)) = length exs) →
  DataLoader_new data bs c = Ok dl →
  progress_total (predict env self dl σ).2 = length data ∧
  progress_n (predict env self dl σ).2 ≤ length data ∧
  (progress self = false → progress_n (predict env self dl σ).2 = 0) ∧
  (∀ r, progress self = true → (predict env self dl σ).1 = Ok r →
        progress_n (predict env self dl σ).2 = length data).
Proof.
  intros Hc Hdl.
  destruct (DataLoader_new_cases data bs c) as [[_ Hno]|[Hbs Hok]]; [congruence|].
  rewrite Hok in Hdl. injection Hdl as <-.
  rewrite predict_loop, batches_sequential by done. cbn [dataset dl_batch_size collate_fn].
  assert (sum_list_with (λ b, length (b_string b)) (c <$> chunks (Z.to_nat bs) data)
          = length data) as Hsum.
  { rewrite <- (concat_chunks (Z.to_nat bs) data) at 2 by lia.
    induction (chunks (Z.to_nat bs) data) as [|chunk l IH]; [done|].
    csimpl. rewrite length_app, Hc, IH. done. }
  destruct (inference_loop_frame self (c <$> chunks (Z.to_nat bs) data)
              empty_results (set_progress (length data) 0 σ))
    as (_ & Hpt & _ & Hhi & Hoff & Hdone).
  rewrite Hsum in Hhi, Hdone. simpl in Hpt, Hhi, Hoff, Hdone. done.
Qed.

(** X16.  The loader [generate] builds, for a batch size of at least one:
    its batches are the collated consecutive groups of the dataset, none
    of them empty, each of exactly [batch_size] examples except possibly
    the last; so a dataset of [n] examples gives the least number of
    batches that holds them all. *)
Theorem loader_batches data bs (c : list Example → Batch) :
  (0 < bs)%Z →
  ∃ dl, DataLoader_new data bs c = Ok dl ∧
    batches env dl = c <$> chunks (Z.to_nat bs) data ∧
    concat (chunks (Z.to_nat bs) data) = data ∧
    Forall (λ chunk, 0 < length chunk ≤ Z.to_nat bs) (chunks (Z.to_nat bs) data) ∧
    (∀ i chunk, chunks (Z.to_nat bs) data !! i = Some chunk →
       S i < length (chunks (Z.to_nat bs) data) → length chunk = Z.to_nat bs) ∧
    length data ≤ length (chunks (Z.to_nat bs) data) * Z.to_nat bs ∧
    length (chunks (Z.to_nat bs) data) * Z.to_nat bs < length data + Z.to_nat bs.
Proof.
  intros Hbs. eexists. rewrite DataLoader_new_Ok by done. split; [done|].
  split; [by apply batches_sequential|].
  split; [apply concat_chunks; lia|]. split.
  { eapply Forall_impl; [apply (chunks_nonempty (Z.to_nat bs) data); lia|].
    simpl. intros chunk [Hne Hle]. split; [|done].
    destruct chunk; [done|simpl; lia]. }
  split; [apply chunks_full|].
  apply chunks_count; lia.
Qed.

(** The batch loop depends on the predictor through its vocabularies, its
    unknown marker, its [topk], its progress flag and the predictions of
    its model only. *)
Lemma inference_loop_model self1 self2 bs acc σ :
  vocabs self1 = vocabs self2 → p_unk self1 = p_unk self2 →
  topk self1 = topk self2 → progress self1 = progress self2 →
  (∀ w lens k, Jlu.predict (model self1) w lens k
               = Jlu.predict (model self2) w lens k) →
  inference_loop self1 bs acc σ = inference_loop self2 bs acc σ.
Proof.
  intros Hv Hu Hk Hpr Hp. revert acc σ.
  induction bs as [|b bs IH]; intros acc σ; [done|].
  rewrite !inference_loop_cons. cbv zeta.
  assert (started self1 b σ = started self2 b σ) as ->
    by (unfold started; by rewrite Hpr).
  destruct (select_data (b_tensor b)) as [data|e]; [|done].
  rewrite Hp, Hk.
  destruct (Jlu.predict (model self2) data.1 data.2 (topk self2)) as [out|e];
    [|done].
  assert (batch_results self1 data.2 out = batch_results self2 data.2 out) as ->.
  { unfold batch_results, to_sent. by rewrite Hv, Hu. }
  destruct (batch_results self2 data.2 out) as [res|e]; [|done].
  apply IH.
Qed.

(** X18.  [--beam-size] has no effect on a run: [generate] stores it in
    the model's [beam_size] attribute, which [predict] never reads (the
    decoder is built with [topk]).  Two command lines that differ in
    [--beam-size] only give the same outcome and the same files. *)
Theorem generate_beam_size_ignored args b σ :
  generate env (with_beam_size args b) σ = generate env args σ.
Proof.
  destruct (DataLoader_new (run_dataset env args) (batch_size args)
              (run_collate env args)) as [dl|e1] eqn:Hdl.
  2: { rewrite (generate_loader_Err env args e1 σ Hdl).
       exact (generate_loader_Err env (with_beam_size args b) e1 σ Hdl). }
  destruct (prepare_model env args (run_vocabs env args)) as [[mdl vocab]|e2] eqn:Hm.
  2: { rewrite (generate_model_Err env args dl e2 σ Hdl Hm).
       exact (generate_model_Err env (with_beam_size args b) dl e2 σ Hdl Hm). }
  rewrite (generate_unfold env args dl mdl vocab σ Hdl Hm).
  rewrite (generate_unfold env (with_beam_size args b) dl mdl vocab σ Hdl Hm).
  unfold mbind at 1, M_bind at 1.
  rewrite (predict_loop env (run_predictor env (with_beam_size args b) mdl vocab)).
  rewrite (inference_loop_model _ (run_predictor env args mdl vocab));
    [|done..].
  rewrite <- predict_loop. reflexivity.
Qed.

(** With a [topk] of zero no example gets an intent candidate. *)
Lemma batch_out_topk_zero self batch r :
  topk self = 0%Z → batch_out self batch = Ok r → Forall (λ c, c = []) r.2.1.
Proof.
  intros Hk. unfold batch_out.
  destruct (select_data (b_tensor batch)) as [data|e]; [|done]. simpl.
  destruct (Jlu.predict (model self) data.1 data.2 (topk self))
    as [[[sc sp] [ic ip]]|e] eqn:Hp; [|done].
  simpl. unfold batch_results.
  destruct (getitem (vocabs self) 1) as [lv|e]; [|done]. simpl.
  destruct (getitem (vocabs self) 2) as [iv|e]; [|done]. simpl.
  intros [= <-]. simpl. apply Forall_fmap, Forall_lookup. intros i ids Hi. simpl.
  destruct (JluMore.predict_Ok_intents_inv _ _ _ _ _ _ _ _ Hp i) as [Hsc _].
  destruct (Hsc ids Hi) as [scores Hscores].
  destruct (JluMore.predict_Ok_intents _ _ _ _ _ _ _ _ Hp) as [_ Hint].
  destruct (Hint i scores Hscores) as [Hic _].
  rewrite Hic in Hi. injection Hi as <-. by rewrite Hk.
Qed.

(** A run with [--top-k 0] that is otherwise set up to succeed reaches the
    end of prediction with an example that has no intent candidate. *)
Lemma generate_top_k_zero args sd σ :
  (0 < batch_size args)%Z → top_k args = 0%Z → expand_vocab args = false →
  torch_load env (ckpt_path args) !! "model"%string = Some sd →
  strict_match env
    (fresh_model env args (load_pkl env (word_vocab args))
       (load_pkl env (label_vocab args)) (load_pkl env (intent_vocab args))) sd
  = true →
  Forall (λ e, ex_tensor e ≠ []) (run_dataset env args) →
  run_dataset env args ≠ [] →
  ∃ dl mdl vocab labels pl intents pi σ1,
    DataLoader_new (run_dataset env args) (batch_size args) (run_collate env args)
      = Ok dl ∧
    prepare_model env args (run_vocabs env args) = Ok (mdl, vocab) ∧
    predict env (run_predictor env args mdl vocab) dl σ
      = (Ok ((labels, pl), (intents, pi)), σ1) ∧
    [] ∈ intents.
Proof.
  intros Hbs Hk He Hsd Hs Hdata Hne.
  pose proof (PredictClaims.prepare_model_run_Ok env args sd He Hsd Hs) as Hm.
  set (mdl := loaded_model env args _ _ _ sd) in Hm.
  set (vocab := load_pkl env (word_vocab args)) in Hm.
  destruct (predict_run env (run_predictor env args mdl vocab) (run_dataset env args)
              (batch_size args) (len <$> run_vocabs env args) σ Hbs Hdata)
    as (dl & rs & σ1 & Hdl & _ & _ & Hrs & Hrun & _).
  { simpl. lia. }
  rewrite foldl_extend_columns in Hrun. simpl in Hrun.
  eexists dl, mdl, vocab, _, _, _, _, σ1.
  split; [exact Hdl|]. split; [exact Hm|]. split; [exact Hrun|].
  destruct (run_dataset env args) as [|x data] eqn:Hd; [done|].
  unfold chunks in Hrs. cbn [length chunks_fuel] in Hrs.
  inversion Hrs as [|chunk r chunks' rs' (Hout & Hlen & _) _]; subst.
  apply batch_out_topk_zero in Hout; [|done].
  destruct Hlen as (_ & _ & Hlen & _).
  rewrite length_take in Hlen.
  destruct (r.2.1) as [|c cs] eqn:Hr.
  { simpl in Hlen. destruct (Z.to_nat (batch_size args)) eqn:?; simpl in Hlen; lia. }
  apply Forall_cons in Hout as [-> _].
  rewrite fmap_cons, concat_cons, Hr. apply elem_of_app. left. left.
Qed.

End extras.

(** *** Runs on the small model *)

#[local] Existing Instance SortsFacts.stable.

Lemma save_label_file_round_trip_witness :
  NoDup (paths ToyRun.args) ∧
  ∃ σ' t,
    save ToyRun.env ToyRun.args ["O  B-loc"; "O"] ["greet"; "greet"]
      [0.5; 0.25]%R [1; 1]%R ToyRun.world = (Ok (), σ') ∧
    files σ' !! path_join (save_dir ToyRun.args) (label_filename ToyRun.args)
      = Some t ∧
    split <$> lines t = split <$> ["O  B-loc"; "O"]%string ∧
    Forall (λ line, Forall token (split line) ∧ join " " (split line) = line)
           (lines t).
Proof.
  split; [apply ToyRun.paths_NoDup|].
  apply (save_label_file_round_trip ToyRun.env ToyRun.args
           ["O  B-loc"; "O"] ["greet"; "greet"] [0.5; 0.25]%R [1; 1]%R
           ToyRun.world ToyRun.paths_NoDup).
Defined.

Lemma generate_expand_vocab_fails_witness :
  expand_vocab ToyRun.args_expand = true ∧
  (∀ vocabs mdl vocab,
     prepare_model ToyRun.env ToyRun.args_expand vocabs ≠ Ok (mdl, vocab)) ∧
  ∃ e, generate ToyRun.env ToyRun.args_expand ToyRun.world = (Err e, ToyRun.world).
Proof.
  split; [reflexivity|].
  apply (generate_expand_vocab_fails ToyRun.env ToyRun.args_expand ToyRun.world
           eq_refl).
Defined.

Lemma prepare_model_sizes_witness :
  ∃ mdl vocab,
    prepare_model ToyRun.env ToyRun.args (run_vocabs ToyRun.env ToyRun.args)
      = Ok (mdl, vocab) ∧
    vocabs (run_predictor ToyRun.env ToyRun.args mdl vocab)
      = run_vocabs ToyRun.env ToyRun.args ∧
    run_collate ToyRun.env ToyRun.args
      = TextSequenceBatchCollator (Jlu.vocab_sizes mdl) ∧
    Jlu.vocab_sizes mdl
      = [len (load_pkl ToyRun.env (word_vocab ToyRun.args));
         len (load_pkl ToyRun.env (label_vocab ToyRun.args));
         len (load_pkl ToyRun.env (intent_vocab ToyRun.args))] ∧
    Jlu.emb_vocab_size (Jlu.embeds mdl)
      = len (load_pkl ToyRun.env (word_vocab ToyRun.args)) ∧
    Jlu.clf_num_labels (Jlu.slot_classifier mdl)
      = len (load_pkl ToyRun.env (label_vocab ToyRun.args)) + 1 ∧
    Jlu.clf_num_labels (Jlu.intent_classifier mdl)
      = len (load_pkl ToyRun.env (intent_vocab ToyRun.args)) + 1.
Proof.
  pose proof (PredictClaims.prepare_model_run_Ok ToyRun.env ToyRun.args ∅ eq_refl
                ToyRun.checkpoint_model (ToyRun.checkpoint_matches _)) as Hm.
  eexists _, _. split; [exact Hm|].
  exact (prepare_model_sizes ToyRun.env ToyRun.args _ _ Hm).
Defined.

Lemma generate_empty_candidates_witness :
  ∃ dl mdl vocab labels pl intents pi σ1,
    DataLoader_new (run_dataset ToyRun.env (with_top_k ToyRun.args 0))
      (batch_size (with_top_k ToyRun.args 0))
      (run_collate ToyRun.env (with_top_k ToyRun.args 0)) = Ok dl ∧
    prepare_model ToyRun.env (with_top_k ToyRun.args 0)
      (run_vocabs ToyRun.env (with_top_k ToyRun.args 0)) = Ok (mdl, vocab) ∧
    predict ToyRun.env (run_predictor ToyRun.env (with_top_k ToyRun.args 0) mdl vocab)
      dl ToyRun.world = (Ok ((labels, pl), (intents, pi)), σ1) ∧
    ([] ∈ labels ∨ [] ∈ intents ∨ [] ∈ pl ∨ [] ∈ pi) ∧
    generate ToyRun.env (with_top_k ToyRun.args 0) ToyRun.world
      = (Err IndexError, σ1) ∧
    files σ1 = files ToyRun.world.
Proof.
  destruct (generate_top_k_zero ToyRun.env (with_top_k ToyRun.args 0) ∅ ToyRun.world)
    as (dl & mdl & vocab & labels & pl & intents & pi & σ1 & Hdl & Hm & Hrun & Hin);
    [reflexivity|reflexivity|reflexivity|apply ToyRun.checkpoint_model
    |apply ToyRun.checkpoint_matches|apply ToyRun.sentences_nonempty
    |discriminate|].
  exists dl, mdl, vocab, labels, pl, intents, pi, σ1.
  split; [exact Hdl|]. split; [exact Hm|]. split; [exact Hrun|].
  split; [right; left; exact Hin|].
  exact (generate_empty_candidates ToyRun.env (with_top_k ToyRun.args 0)
           dl mdl vocab labels pl intents pi ToyRun.world σ1 Hdl Hm Hrun
           (or_intror (or_introl Hin))).
Defined.

Lemma collator_keeps_strings pad_idxs exs :
  length (b_string (TextSequenceBatchCollator pad_idxs exs)) = length exs.
Proof. unfold TextSequenceBatchCollator. simpl. apply length_fmap. Qed.

Lemma predict_progress_witness :
  (∀ exs, length (b_string (TextSequenceBatchCollator [5; 3; 1] exs)) = length exs) ∧
  DataLoader_new ToyRun.sentences 3 (TextSequenceBatchCollator [5; 3; 1])
  = Ok {| dataset := ToyRun.sentences; dl_batch_size := 3; shuffle := false;
          collate_fn := TextSequenceBatchCollator [5; 3; 1] |} ∧
  progress_total
    (predict ToyRun.env ToyRun.predictor
       {| dataset := ToyRun.sentences; dl_batch_size := 3; shuffle := false;
          collate_fn := TextSequenceBatchCollator [5; 3; 1] |} ToyRun.world).2
  = length ToyRun.sentences ∧
  progress_n
    (predict ToyRun.env ToyRun.predictor
       {| dataset := ToyRun.sentences; dl_batch_size := 3; shuffle := false;
          collate_fn := TextSequenceBatchCollator [5; 3; 1] |} ToyRun.world).2
  ≤ length ToyRun.sentences ∧
  (progress ToyRun.predictor = false →
   progress_n
     (predict ToyRun.env ToyRun.predictor
        {| dataset := ToyRun.sentences; dl_batch_size := 3; shuffle := false;
           collate_fn := TextSequenceBatchCollator [5; 3; 1] |} ToyRun.world).2
   = 0) ∧
  (∀ r, progress ToyRun.predictor = true →
     (predict ToyRun.env ToyRun.predictor
        {| dataset := ToyRun.sentences; dl_batch_size := 3; shuffle := false;
           collate_fn := TextSequenceBatchCollator [5; 3; 1] |} ToyRun.world).1
     = Ok r →
     progress_n
       (predict ToyRun.env ToyRun.predictor
          {| dataset := ToyRun.sentences; dl_batch_size := 3; shuffle := false;
             collate_fn := TextSequenceBatchCollator [5; 3; 1] |} ToyRun.world).2
     = length ToyRun.sentences).
Proof.
  split; [apply collator_keeps_strings|]. split; [reflexivity|].
  exact (predict_progress ToyRun.env ToyRun.predictor ToyRun.sentences 3
           (TextSequenceBatchCollator [5; 3; 1]) _ ToyRun.world
           (collator_keeps_strings [5; 3; 1]) eq_refl).
Defined.

Lemma loader_batches_witness :
  (0 < 3)%Z ∧
  ∃ dl, DataLoader_new ToyRun.sentences 3 (TextSequenceBatchCollator [5; 3; 1])
        = Ok dl ∧
    batches ToyRun.env dl
    = TextSequenceBatchCollator [5; 3; 1] <$> chunks (Z.to_nat 3) ToyRun.sentences ∧
    concat (chunks (Z.to_nat 3) ToyRun.sentences) = ToyRun.sentences ∧
    Forall (λ chunk, 0 < length chunk ≤ Z.to_nat 3)
           (chunks (Z.to_nat 3) ToyRun.sentences) ∧
    (∀ i chunk, chunks (Z.to_nat 3) ToyRun.sentences !! i = Some chunk →
       S i < length (chunks (Z.to_nat 3) ToyRun.sentences) →
       length chunk = Z.to_nat 3) ∧
    length ToyRun.sentences
      ≤ length (chunks (Z.to_nat 3) ToyRun.sentences) * Z.to_nat 3 ∧
    length (chunks (Z.to_nat 3) ToyRun.sentences) * Z.to_nat 3
      < length ToyRun.sentences + Z.to_nat 3.
Proof.
  split; [lia|].
  apply (loader_batches ToyRun.env ToyRun.sentences 3
           (TextSequenceBatchCollator [5; 3; 1])). lia.
Defined.

Lemma generate_batch_size_invalid_witness :
  (batch_size (with_batch_size ToyRun.args 0) ≤ 0)%Z ∧
  generate ToyRun.env (with_batch_size ToyRun.args 0) ToyRun.world
  = (Err ValueError, ToyRun.world).
Proof.
  split; [reflexivity|].
  apply (generate_batch_size_invalid ToyRun.env (with_batch_size ToyRun.args 0)
           ToyRun.world). reflexivity.
Defined.

End PredictExtras.
